(** * tcpkali engine: a model of [tcpkali_engine.c]

    The connection-generation and data-pumping core of the traffic
    generator: per-worker remote statistics, the address picker, the
    connection opener, the write callback and the payload chunker.

    Conventions of the embedding.
    - [unsigned int] and [size_t] values are integers in [Z] and every
      arithmetic step on them is reduced modulo [2^32], resp. [2^64].
    - [long] counters (the per-remote statistics) are integers in [Z];
      signed overflow is undefined in C and is outside the model.
    - A pointer into the [remote_stats] array, or into the address array,
      is the index it points at; a pointer into the payload is the offset
      from [sample_data].
    - System calls are answered by the environment: the answer is an
      argument of the function that makes the call, and what the function
      does to the outside world is appended to a trace. *)

From stdpp Require Import base numbers list gmap fin_maps.
From Stdlib Require Import ZArith Lia Ascii.

Local Open Scope Z_scope.

(** ** Machine integers *)

Definition UINT_MOD : Z := 2 ^ 32.
Definition SIZE_MOD : Z := 2 ^ 64.

Definition wrap_uint (x : Z) : Z := x mod UINT_MOD.
Definition wrap_size (x : Z) : Z := x mod SIZE_MOD.

(** ** Error numbers and event masks the code switches on *)

Definition ENFILE : Z := 23.
Definition EPIPE : Z := 32.
Definition EINPROGRESS : Z := 115.
Definition EV_WRITE : Z := 2.
Definition THREAD_TERMINATING : Z := 1.

(** ** Data model *)

(** [struct remote_stats] *)
Record remote_stats := RemoteStats {
  connection_attempts : Z;
  connection_failures : Z
}.

(** [struct loop_arguments]. [n_addrs] is [addresses.n_addrs]; the
    addresses themselves are opaque and are named by their index.
    [stats] is the array [remote_stats], whose name the record of its
    entries has taken. [open_connections] is an [atomic_t], a type
    declared outside this file: it is an integer in [Z]. *)
Record loop_arguments := LoopArguments {
  n_addrs : Z;
  sample_data : list ascii;
  sample_data_size : Z;
  stats : list remote_stats;
  address_offset : Z;
  control_pipe : Z;
  thread_no : Z;
  total_data_transmitted : Z;
  thread_flags : Z;
  open_connections : Z
}.

(** [struct connection]. [remote_address] and [remote_stats] point at
    the same index [remote]; [sockfd] is [watcher.fd]. *)
Record connection := Connection {
  write_offset : Z;
  data_transmitted : Z;
  remote : nat;
  sockfd : Z
}.

(** ** [pick_remote_address] *)

(** The test of the loop body: the candidate is passed over. *)
Definition skip_eligible (rs : remote_stats) : bool :=
  (10 <? connection_attempts rs)
  && (connection_failures rs =? connection_attempts rs).

(** The loop of [pick_remote_address]: [iters] iterations are left,
    [cursor] is [largs->address_offset], [off] the variable of that name.
    The result is the final [off] and cursor; [None] stands for a read
    outside the statistics array. *)
Fixpoint pick_scan (iters : nat) (n : Z) (tbl : list remote_stats)
    (cursor off : Z) : option (Z * Z) :=
  match iters with
  | O => Some (off, cursor)
  | S k =>
      let off' := cursor mod n in
      let cursor' := wrap_uint (cursor + 1) in
      match tbl !! Z.to_nat off' with
      | None => None
      | Some rs =>
          if skip_eligible rs then pick_scan k n tbl cursor' off'
          else Some (off', cursor')
      end
  end.

Definition set_address_offset (la : loop_arguments) (c : Z) : loop_arguments :=
  LoopArguments (n_addrs la) (sample_data la) (sample_data_size la) (stats la)
    c (control_pipe la) (thread_no la) (total_data_transmitted la)
    (thread_flags la) (open_connections la).

(** Returns the chosen index (both returned pointers point at it) and
    the worker with its cursor advanced. [None] stands for a read outside
    the statistics array inside the loop. *)
Definition pick_remote_address (la : loop_arguments)
    : option (nat * loop_arguments) :=
  match pick_scan (Z.to_nat (n_addrs la)) (n_addrs la) (stats la)
          (address_offset la) 0 with
  | None => None
  | Some (off, cursor) => Some (Z.to_nat off, set_address_offset la cursor)
  end.

(** The worker's tables agree with the pool and the cursor is an
    [unsigned int]. *)
Definition largs_wf (la : loop_arguments) : Prop :=
  1 <= n_addrs la /\
  Z.of_nat (length (stats la)) = n_addrs la /\
  0 <= address_offset la < UINT_MOD.

(** The [k]-th candidate the scan looks at, [k] counted from 0. *)
Definition candidate (la : loop_arguments) (k : Z) : nat :=
  Z.to_nat (wrap_uint (address_offset la + k) mod n_addrs la).

Definition entry_skip_eligible (la : loop_arguments) (i : nat) : bool :=
  match stats la !! i with
  | Some rs => skip_eligible rs
  | None => false
  end.

(** ** [largest_contiguous_chunk] *)

(** Takes [*current_offset]; returns [*position] (as an offset into the
    payload), [*available_length] and the new [*current_offset]. The
    subtraction is done in [size_t]. *)
Definition largest_contiguous_chunk (la : loop_arguments) (current_offset : Z)
    : Z * Z * Z :=
  let size := sample_data_size la in
  let available := wrap_size (size - current_offset) in
  if available =? 0 then (0, size, 0)
  else (current_offset, available, current_offset).

(** The bytes of the payload a [write] of [wrote] bytes at [position]
    hands to the socket. *)
Definition payload_bytes (la : loop_arguments) (position wrote : Z)
    : list ascii :=
  take (Z.to_nat wrote) (drop (Z.to_nat position) (sample_data la)).

(** ** The world of one worker *)

Inductive log_msg :=
| LogControlRead (thread fd errno : Z)
| LogUnknownOp (c : ascii) (fd : Z)
| LogSocketTableFull (limit : Z)
| LogNotDone (addr : nat) (errno : Z)
| LogClosedBy (addr : nat).

(** What a worker does to the outside. *)
Inductive effect :=
| EWrite (fd : Z) (bytes : list ascii)
| EClose (fd : Z)
| ELog (m : log_msg).

(** [conns] holds the connections that are allocated and whose watcher
    is started, keyed by their address; [control_watcher] tells whether
    the watcher of the control pipe is started. *)
Record world := World {
  largs : loop_arguments;
  conns : gmap nat connection;
  control_watcher : bool;
  trace : list effect
}.

Inductive stop :=
| Exit (status : Z)
| AssertFailed
| OutOfBounds.

Inductive result :=
| Running (w : world)
| Stopped (why : stop) (w : world).

(** Answers of the environment. [SocketError], [ConnectError] and
    [WriteError] are the answer -1 with the value of [errno];
    [Wrote n] is the answer [n] of a [write] that took [n] bytes;
    [ReadFailed] is any answer of [read] other than 1. *)
Inductive socket_answer := SocketFd (fd : Z) | SocketError (errno : Z).
Inductive connect_answer := ConnectDone | ConnectError (errno : Z).
Inductive write_answer := Wrote (n : Z) | WriteError (errno : Z).
Inductive read_answer := ReadByte (c : ascii) | ReadFailed (errno : Z).

Record syscalls := Syscalls {
  socket_ans : socket_answer;
  fcntl_ans : Z;
  connect_ans : connect_answer;
  open_max : Z
}.

(** *** Field updates *)

Definition set_stats (la : loop_arguments) (t : list remote_stats)
    : loop_arguments :=
  LoopArguments (n_addrs la) (sample_data la) (sample_data_size la) t
    (address_offset la) (control_pipe la) (thread_no la)
    (total_data_transmitted la) (thread_flags la) (open_connections la).

Definition set_thread_flags (la : loop_arguments) (f : Z) : loop_arguments :=
  LoopArguments (n_addrs la) (sample_data la) (sample_data_size la) (stats la)
    (address_offset la) (control_pipe la) (thread_no la)
    (total_data_transmitted la) f (open_connections la).

Definition set_open_connections (la : loop_arguments) (c : Z)
    : loop_arguments :=
  LoopArguments (n_addrs la) (sample_data la) (sample_data_size la) (stats la)
    (address_offset la) (control_pipe la) (thread_no la)
    (total_data_transmitted la) (thread_flags la) c.

Definition set_total_data_transmitted (la : loop_arguments) (t : Z)
    : loop_arguments :=
  LoopArguments (n_addrs la) (sample_data la) (sample_data_size la) (stats la)
    (address_offset la) (control_pipe la) (thread_no la)
    t (thread_flags la) (open_connections la).

Definition incr_attempts (rs : remote_stats) : remote_stats :=
  RemoteStats (connection_attempts rs + 1) (connection_failures rs).

Definition incr_failures (rs : remote_stats) : remote_stats :=
  RemoteStats (connection_attempts rs) (connection_failures rs + 1).

Definition failures_at (la : loop_arguments) (i : nat) : Z :=
  from_option connection_failures 0 (stats la !! i).

Definition log (m : log_msg) (w : world) : world :=
  World (largs w) (conns w) (control_watcher w) (trace w ++ [ELog m]).

Definition emit (e : effect) (w : world) : world :=
  World (largs w) (conns w) (control_watcher w) (trace w ++ [e]).

Definition set_largs (la : loop_arguments) (w : world) : world :=
  World la (conns w) (control_watcher w) (trace w).

Definition set_conns (m : gmap nat connection) (w : world) : world :=
  World (largs w) m (control_watcher w) (trace w).

(** [close_connection]: the watcher is stopped and the connection freed. *)
Definition close_connection (id : nat) (w : world) : world :=
  set_conns (delete id (conns w)) w.

(** The counters are folded and the connection goes away: the three
    lines shared by the termination and the broken-pipe paths. *)
Definition fold_and_close (id : nat) (conn : connection) (w : world) : world :=
  let la := largs w in
  let la := set_total_data_transmitted la
              (wrap_size (total_data_transmitted la + data_transmitted conn)) in
  let la := set_open_connections la (open_connections la - 1) in
  close_connection id (set_largs la w).

(** ** [start_new_connection] *)

Definition start_new_connection (env : syscalls) (w : world) : result :=
  match pick_remote_address (largs w) with
  | None => Stopped OutOfBounds w
  | Some (i, la) =>
      match stats la !! i with
      | None => Stopped OutOfBounds w
      | Some rs =>
          let la := set_stats la (<[i := incr_attempts rs]> (stats la)) in
          let w := set_largs la w in
          match socket_ans env with
          | SocketError errno =>
              if errno =? ENFILE
              then Stopped (Exit 1) (log (LogSocketTableFull (open_max env)) w)
              else Running w
          | SocketFd fd =>
              if fcntl_ans env =? -1 then Stopped AssertFailed w
              else
                let established :=
                  let id := fresh (dom (conns w)) in
                  let la := set_open_connections la (open_connections la + 1) in
                  Running (set_conns (<[id := Connection 0 0 i fd]> (conns w))
                             (set_largs la w)) in
                match connect_ans env with
                | ConnectDone => established
                | ConnectError errno =>
                    if errno =? EINPROGRESS then established
                    else
                      let rs := incr_failures (incr_attempts rs) in
                      let la := set_stats la (<[i := rs]> (stats la)) in
                      let w := set_largs la w in
                      let w := if connection_failures rs =? 1
                               then log (LogNotDone i errno) w else w in
                      Running (emit (EClose fd) w)
                end
          end
      end
  end.

(** ** [connection_cb] *)

Definition connection_cb (id : nat) (conn : connection) (revents : Z)
    (ans : write_answer) (w : world) : world :=
  let la := largs w in
  if negb (Z.land (thread_flags la) THREAD_TERMINATING =? 0) then
    fold_and_close id conn w
  else if negb (Z.land revents EV_WRITE =? 0) then
    let '(position, available_length, offset) :=
      largest_contiguous_chunk la (write_offset conn) in
    let conn := Connection offset (data_transmitted conn) (remote conn)
                  (sockfd conn) in
    let w := set_conns (<[id := conn]> (conns w)) w in
    match ans with
    | WriteError errno =>
        if errno =? EPIPE then
          let w := log (LogClosedBy (remote conn)) w in
          let la := set_stats la (alter incr_failures (remote conn) (stats la)) in
          fold_and_close id conn (set_largs la w)
        else w
    | Wrote wrote =>
        let conn := Connection (write_offset conn + wrote)
                      (wrap_size (data_transmitted conn + wrote))
                      (remote conn) (sockfd conn) in
        emit (EWrite (sockfd conn) (payload_bytes la position wrote))
          (set_conns (<[id := conn]> (conns w)) w)
    end
  else w.

(** ** [control_cb] *)

Definition control_cb (ans : read_answer) (env : syscalls) (w : world)
    : result :=
  let la := largs w in
  match ans with
  | ReadFailed errno =>
      Running (log (LogControlRead (thread_no la) (control_pipe la) errno) w)
  | ReadByte c =>
      if Ascii.eqb c "c" then start_new_connection env w
      else if Ascii.eqb c "b" then
        let la := set_thread_flags la
                    (Z.lor (thread_flags la) THREAD_TERMINATING) in
        Running (World la (conns w) false (trace w))
      else Running (log (LogUnknownOp c (control_pipe la)) w)
  end.

(** ** [start_engine] and [single_engine_loop_thread] *)

(** The [loop_arguments] handed to thread [n]. *)
Definition engine_loop_args (addresses rd_pipe n : Z) : loop_arguments :=
  LoopArguments addresses ["a"; "b"; "c"]%char 3
    (replicate (Z.to_nat addresses) (RemoteStats 0 0))
    (wrap_uint n) rd_pipe n 0 0 0.

(** [addresses] is [addresses.n_addrs], [ncpus] the answer of
    [number_of_cpus]; [None] is the failed assertion on it. [pipe] and
    [pthread_create] are taken to succeed, [rd_pipe] being the read end
    of the pipe. The result lists the arguments of the threads in the
    order they are created. *)
Definition start_engine (addresses rd_pipe ncpus : Z)
    : option (list loop_arguments) :=
  if ncpus <? 1 then None
  else Some (engine_loop_args addresses rd_pipe <$> seqZ 0 ncpus).

(** The world of a worker when it enters [ev_run]. *)
Definition single_engine_loop_thread (la : loop_arguments) : world :=
  World la ∅ true [].

(** ** The event loop *)

(** The loop calls back a watcher only while it is started. *)
Inductive event :=
| ControlReadable (ans : read_answer) (env : syscalls)
| SocketReady (id : nat) (revents : Z) (ans : write_answer).

Definition dispatch (ev : event) (w : world) : result :=
  match ev with
  | ControlReadable ans env =>
      if control_watcher w then control_cb ans env w else Running w
  | SocketReady id revents ans =>
      match conns w !! id with
      | Some conn => Running (connection_cb id conn revents ans w)
      | None => Running w
      end
  end.

Fixpoint run (evs : list event) (w : world) : result :=
  match evs with
  | [] => Running w
  | ev :: evs =>
      match dispatch ev w with
      | Running w' => run evs w'
      | Stopped why w' => Stopped why w'
      end
  end.

(** Worlds a worker of an engine over a non-empty pool can be in. *)
Inductive reachable : world -> Prop :=
| reachable_start addresses rd_pipe ncpus las la :
    1 <= addresses ->
    start_engine addresses rd_pipe ncpus = Some las ->
    la ∈ las ->
    reachable (single_engine_loop_thread la)
| reachable_step w ev w' :
    reachable w ->
    dispatch ev w = Running w' ->
    reachable w'.

(** ** The stream a connection sends *)

(** The write path of [connection_cb] on the write offset alone: for
    each answer [wrote] of [write], the chunk is computed, the bytes
    accepted are sent and the offset advances. *)
Fixpoint pump (la : loop_arguments) (offset : Z) (writes : list Z)
    : list ascii * Z :=
  match writes with
  | [] => ([], offset)
  | wrote :: writes =>
      let '(position, _, offset) := largest_contiguous_chunk la offset in
      let '(sent, final) := pump la (offset + wrote) writes in
      (payload_bytes la position wrote ++ sent, final)
  end.

(** Every answer lies between 0 and the length that was offered. *)
Fixpoint writes_fit (la : loop_arguments) (offset : Z) (writes : list Z)
    : Prop :=
  match writes with
  | [] => True
  | wrote :: writes =>
      let '(_, available_length, offset) := largest_contiguous_chunk la offset in
      0 <= wrote <= available_length /\ writes_fit la (offset + wrote) writes
  end.

(** The bytes the trace shows as written to the socket [fd]. *)
Fixpoint written (fd : Z) (tr : list effect) : list ascii :=
  match tr with
  | [] => []
  | EWrite fd' bytes :: tr =>
      if fd' =? fd then bytes ++ written fd tr else written fd tr
  | _ :: tr => written fd tr
  end.

(** The readiness events of a connection whose writes are answered
    with the given lengths. *)
Definition write_events (id : nat) (writes : list Z) : list event :=
  (fun wrote => SocketReady id EV_WRITE (Wrote wrote)) <$> writes.

(** The first [n] bytes of the payload repeated without end. *)
Definition payload_stream (la : loop_arguments) (n : nat) : list ascii :=
  take n (mjoin (replicate n (sample_data la))).

Definition payload_wf (la : loop_arguments) : Prop :=
  1 <= sample_data_size la < SIZE_MOD /\
  Z.of_nat (length (sample_data la)) = sample_data_size la.

(** The test [largs->thread_flags & THREAD_TERMINATING]. *)
Definition terminating (w : world) : bool :=
  negb (Z.land (thread_flags (largs w)) THREAD_TERMINATING =? 0).

(** The number of live connections to the address of index [i]. *)
Definition conns_to (i : nat) (m : gmap nat connection) : nat :=
  size (filter (fun kv => remote kv.2 = i) m).

(** The open-connection count is the number of live connections. *)
Definition count_inv (w : world) : Prop :=
  open_connections (largs w) = Z.of_nat (size (conns w)).

(** Every live connection to an address stands for an attempt that has
    not been counted as a failure. *)
Definition health_inv (w : world) : Prop :=
  forall (i : nat) (rs : remote_stats),
    stats (largs w) !! i = Some rs ->
    connection_failures rs + Z.of_nat (conns_to i (conns w))
      <= connection_attempts rs.

(** ** Sample workers *)

(** Two addresses, the first dead, the cursor at the end of its range. *)
Definition largs_pool_of_two : loop_arguments :=
  LoopArguments 2 ["a"; "b"; "c"]%char 3
    [RemoteStats 11 11; RemoteStats 0 0] 4294967295 0 0 0 0 0.

(** A worker over three addresses of which the first two refuse every
    connection. Eleven rounds of three 'c' bytes: the connects to the
    first two addresses are refused, the socket call for the third
    fails on the descriptor limit of the process. *)
Definition events_two_dead : list event :=
  mjoin (replicate 11
    [ControlReadable (ReadByte "c") (Syscalls (SocketFd 7) 0 (ConnectError 111) 1024);
     ControlReadable (ReadByte "c") (Syscalls (SocketFd 7) 0 (ConnectError 111) 1024);
     ControlReadable (ReadByte "c") (Syscalls (SocketError 24) 0 ConnectDone 1024)]).

Definition trace_two_dead : list effect :=
  [ELog (LogNotDone 0 111); EClose 7; ELog (LogNotDone 1 111); EClose 7]
  ++ replicate 20 (EClose 7).

(** The world of that worker after [k >= 11] rounds, when every later
    'c' byte met the same failure of the socket call: the first two
    addresses are dead, the third has [k] attempts and no failure, the
    cursor is at [3 * k]. *)
Definition world_two_dead (k : Z) : world :=
  World (LoopArguments 3 ["a"; "b"; "c"]%char 3
           [RemoteStats 11 11; RemoteStats 11 11; RemoteStats k 0]
           (3 * k) 0 0 0 0 0)
    ∅ true trace_two_dead.

(** The worker of the failing scan: the cursor is at the largest
    [unsigned int], [2^32 - 1 = 3 * 1431655765]. *)
Definition largs_cursor_at_max : loop_arguments :=
  largs (world_two_dead 1431655765).

(** The worker of thread 0 of an engine over one address. *)
Definition largs_thread0 : loop_arguments := engine_loop_args 1 0 0.

(** The world of that worker when its loop starts. *)
Definition world_thread0 : world := single_engine_loop_thread largs_thread0.

(** Answers of a socket call that gives descriptor 7 and of a connect
    that is in progress; of a connect that is refused (error 111); of a
    socket call that fails on the descriptor limit of the process
    (error 24) and on the table of the system. *)
Definition env_in_progress : syscalls :=
  Syscalls (SocketFd 7) 0 (ConnectError EINPROGRESS) 1024.
Definition env_refused : syscalls :=
  Syscalls (SocketFd 7) 0 (ConnectError 111) 1024.
Definition env_no_descriptor : syscalls :=
  Syscalls (SocketError 24) 0 ConnectDone 1024.
Definition env_table_full : syscalls :=
  Syscalls (SocketError ENFILE) 0 ConnectDone 1024.

(** One connection is opened and a first write takes the whole
    payload: the write offset of the connection is at the end. *)
Definition events_offset_at_end : list event :=
  [ControlReadable (ReadByte "c") env_in_progress;
   SocketReady 0 EV_WRITE (Wrote 3)].

Definition world_offset_at_end : world :=
  World (set_open_connections (set_stats (set_address_offset largs_thread0 1)
                                 [RemoteStats 1 0]) 1)
    {[0%nat := Connection 3 3 0 7]} true
    [EWrite 7 ["a"; "b"; "c"]%char].

(** One connection is opened and its first write finds the peer gone. *)
Definition events_broken_pipe : list event :=
  [ControlReadable (ReadByte "c") env_in_progress;
   SocketReady 0 EV_WRITE (WriteError EPIPE)].

Definition world_broken_pipe : world :=
  World (set_stats (set_address_offset largs_thread0 1) [RemoteStats 1 1])
    ∅ true [ELog (LogClosedBy 0)].

(** The world of a worker right after it has read the byte 'b'. *)
Definition after_b (w : world) : world :=
  World (set_thread_flags (largs w)
           (Z.lor (thread_flags (largs w)) THREAD_TERMINATING))
    (conns w) false (trace w).

(** The world of a terminating worker after the connection [id] got a
    readiness event. *)
Definition torn_down (id : nat) (conn : connection) (w : world) : world :=
  World
    (LoopArguments (n_addrs (largs w)) (sample_data (largs w))
       (sample_data_size (largs w)) (stats (largs w))
       (address_offset (largs w)) (control_pipe (largs w))
       (thread_no (largs w))
       (wrap_size (total_data_transmitted (largs w) + data_transmitted conn))
       (thread_flags (largs w))
       (open_connections (largs w) - 1))
    (delete id (conns w)) (control_watcher w) (trace w).

(** ** Further notions *)

(** Every connection points into the statistics table. *)
Definition conns_in_table (w : world) : Prop :=
  forall (id : nat) (conn : connection),
    conns w !! id = Some conn ->
    (remote conn < length (stats (largs w)))%nat.

(** The tables of the worker have the size of the pool, its cursor and
    its byte counter are in the range of their types, and its
    connections point into the table. *)
Definition world_wf (w : world) : Prop :=
  largs_wf (largs w) /\
  0 <= total_data_transmitted (largs w) < SIZE_MOD /\
  conns_in_table w.

(** The world a call leaves, whether the worker goes on or stops. *)
Definition result_world (r : result) : world :=
  match r with
  | Running w => w
  | Stopped _ w => w
  end.

(** [k] selections in a row; the indexes in the order they are chosen. *)
Fixpoint pick_many (k : nat) (la : loop_arguments)
    : option (list nat * loop_arguments) :=
  match k with
  | O => Some ([], la)
  | S k =>
      match pick_remote_address la with
      | None => None
      | Some (i, la) =>
          match pick_many k la with
          | None => None
          | Some (l, la) => Some (i :: l, la)
          end
      end
  end.

(** The sum of the byte counters of the live connections. *)
Definition conns_bytes (m : gmap nat connection) : Z :=
  map_fold (fun _ conn acc => data_transmitted conn + acc) 0 m.

(** The number of bytes the trace shows as written, on any socket. *)
Fixpoint trace_bytes (tr : list effect) : Z :=
  match tr with
  | [] => 0
  | EWrite _ bytes :: tr => Z.of_nat (length bytes) + trace_bytes tr
  | _ :: tr => trace_bytes tr
  end.

(** The answer of the [write] of this event, if the event leads to one,
    lies between 0 and the length offered to [write]. *)
Definition write_fits (ev : event) (w : world) : Prop :=
  match ev with
  | SocketReady id _ (Wrote wrote) =>
      match conns w !! id with
      | Some conn =>
          0 <= wrote
          <= (largest_contiguous_chunk (largs w) (write_offset conn)).1.2
      | None => True
      end
  | _ => True
  end.

Fixpoint run_fits (evs : list event) (w : world) : Prop :=
  match evs with
  | [] => True
  | ev :: evs =>
      write_fits ev w /\
      match dispatch ev w with
      | Running w' => run_fits evs w'
      | Stopped _ _ => True
      end
  end.

(** The write offsets of the connections are inside the payload or at
    its end. *)
Definition offsets_in_payload (w : world) : Prop :=
  forall (id : nat) (conn : connection),
    conns w !! id = Some conn ->
    0 <= write_offset conn <= sample_data_size (largs w).

(** The byte counters of the worker account for the bytes written. *)
Definition bytes_accounted (w : world) : Prop :=
  wrap_size (total_data_transmitted (largs w) + conns_bytes (conns w))
  = wrap_size (trace_bytes (trace w)).

(** The three facts that travel together along a run whose writes
    fit. *)
Definition stream_inv (w : world) : Prop :=
  payload_wf (largs w) /\ offsets_in_payload w /\ bytes_accounted w.

(** Readiness events, one for each of the given connections. *)
Definition ready_events (l : list (nat * Z * write_answer)) : list event :=
  (fun x => SocketReady x.1.1 x.1.2 x.2) <$> l.

(** ** Further sample workers *)

(** Thread 0 of an engine over two addresses of which the first refuses
    every connection: eleven refused connects to the first address, ten
    failed socket calls and then a connect in progress for the second. *)
Definition events_one_dead : list event :=
  mjoin (replicate 10
    [ControlReadable (ReadByte "c") env_refused;
     ControlReadable (ReadByte "c") env_no_descriptor])
  ++ [ControlReadable (ReadByte "c") env_refused;
      ControlReadable (ReadByte "c") env_in_progress].

Definition world_one_dead : world :=
  World (LoopArguments 2 ["a"; "b"; "c"]%char 3
           [RemoteStats 11 11; RemoteStats 11 0] 22 0 0 0 0 1)
    {[0%nat := Connection 0 0 1 7]} true
    ([ELog (LogNotDone 0 111)] ++ replicate 11 (EClose 7)).

(** The whole life of a worker with one connection: the connection is
    opened, takes three bytes and then two, the worker reads 'b', and
    the next readiness event closes the connection. *)
Definition events_full_life : list event :=
  [ControlReadable (ReadByte "c") env_in_progress;
   SocketReady 0 EV_WRITE (Wrote 3);
   SocketReady 0 EV_WRITE (Wrote 2);
   ControlReadable (ReadByte "b") env_in_progress;
   SocketReady 0 EV_WRITE (Wrote 1)].

Definition world_full_life : world :=
  World (LoopArguments 1 ["a"; "b"; "c"]%char 3 [RemoteStats 1 0] 1 0 0 5 1 0)
    ∅ false
    [EWrite 7 ["a"; "b"; "c"]%char; EWrite 7 ["a"; "b"]%char].

(** The worker whose connection has sent the payload once, after it has
    read the byte 'b'. *)
Definition world_terminating : world := after_b world_offset_at_end.

(** Input on the control channel that is no command: a failed read, or
    a byte other than 'c' and 'b'. *)
Definition ignored_input (ev : event) : Prop :=
  match ev with
  | ControlReadable (ReadFailed _) _ => True
  | ControlReadable (ReadByte c) _ => c <> "c"%char /\ c <> "b"%char
  | SocketReady _ _ _ => False
  end.

(** * Properties *)

(** ** Runs of the event loop *)

Lemma reachable_run (evs : list event) (w w' : world) :
  reachable w -> run evs w = Running w' -> reachable w'.
Proof.
  revert w. induction evs as [|ev evs IH]; intros w Hw Hrun; cbn in Hrun.
  - injection Hrun as <-. assumption.
  - destruct (dispatch ev w) as [w1|] eqn:Hstep; [|discriminate].
    eapply IH; [|eassumption]. eapply reachable_step; eassumption.
Qed.

(** ** Address selection *)

Lemma wrap_uint_range x : 0 <= wrap_uint x < UINT_MOD.
Proof. apply Z.mod_pos_bound. reflexivity. Qed.

Lemma wrap_uint_succ c k : wrap_uint (wrap_uint (c + 1) + k) = wrap_uint (c + (1 + k)).
Proof.
  unfold wrap_uint. rewrite Zplus_mod_idemp_l. f_equal. lia.
Qed.

Lemma wrap_uint_small x : 0 <= x < UINT_MOD -> wrap_uint x = x.
Proof. intros. apply Z.mod_small. assumption. Qed.

Section pick_scan.

Variable n : Z.
Variable tbl : list remote_stats.
Hypothesis Hn : 1 <= n.
Hypothesis Hlen : Z.of_nat (length tbl) = n.

(** What the loop computes, for a table as long as the modulus. The
    candidates are named from the cursor the loop starts at. *)
Lemma pick_scan_spec :
  forall (iters : nat) (cursor off : Z),
  (0 < iters)%nat -> 0 <= cursor < UINT_MOD ->
  exists k : nat,
    (k < iters)%nat /\
    pick_scan iters n tbl cursor off
      = Some (wrap_uint (cursor + Z.of_nat k) mod n,
              wrap_uint (cursor + Z.of_nat k + 1)) /\
    (forall j : nat, (j < k)%nat ->
       exists rs, tbl !! Z.to_nat (wrap_uint (cursor + Z.of_nat j) mod n) = Some rs /\
                  skip_eligible rs = true) /\
    (exists rs, tbl !! Z.to_nat (wrap_uint (cursor + Z.of_nat k) mod n) = Some rs /\
                (skip_eligible rs = false \/
                 (skip_eligible rs = true /\ S k = iters))).
Proof.
  induction iters as [|iters IH]; intros cursor off Hpos Hc.
  - lia.
  - cbn [pick_scan].
    assert (Hin : (Z.to_nat (cursor mod n) < length tbl)%nat).
    { pose proof (Z.mod_pos_bound cursor n). lia. }
    destruct (lookup_lt_is_Some_2 _ _ Hin) as [rs Hrs]. rewrite Hrs.
    destruct (skip_eligible rs) eqn:Hskip.
    + destruct iters as [|iters'].
      * exists 0%nat. cbn [pick_scan]. rewrite !Z.add_0_r, (wrap_uint_small cursor) by assumption.
        split; [lia|]. split; [reflexivity|]. split; [intros; lia|].
        exists rs. split; [assumption|]. right. split; [assumption|reflexivity].
      * destruct (IH (wrap_uint (cursor + 1)) (cursor mod n)) as (k & Hk & Heq & Hbefore & Hat).
        { lia. } { apply wrap_uint_range. }
        exists (S k). split; [lia|].
        rewrite !wrap_uint_succ in *.
        replace (cursor + Z.of_nat (S k)) with (cursor + (1 + Z.of_nat k)) by lia.
        split.
        { rewrite Heq. do 2 f_equal.
          rewrite <- Z.add_assoc, wrap_uint_succ. f_equal. lia. }
        split.
        { intros [|j] Hj.
          - exists rs. rewrite Z.add_0_r, wrap_uint_small by assumption. auto.
          - destruct (Hbefore j) as (rs' & Hl & Hs); [lia|].
            exists rs'. rewrite wrap_uint_succ in Hl.
            replace (cursor + Z.of_nat (S j)) with (cursor + (1 + Z.of_nat j)) by lia.
            auto. }
        destruct Hat as (rs' & Hl & Hs). exists rs'. split; [assumption|].
        destruct Hs as [Hs|[Hs Hlast]]; [left; assumption|right].
        split; [assumption|lia].
    + exists 0%nat. rewrite !Z.add_0_r, (wrap_uint_small cursor) by assumption.
      split; [lia|]. split; [reflexivity|]. split; [intros; lia|].
      exists rs. auto.
Qed.

End pick_scan.

(** C9. Over a pool of [N >= 1] addresses [pick_remote_address] always
    returns. It looks at [k + 1 <= N] candidates, one per step of the
    cursor: every candidate before the [k]-th is skip-eligible, the
    [k]-th is returned, and it is either not skip-eligible (the scan
    stopped at the first such candidate) or it is the [N]-th and last
    candidate scanned, all [N] being skip-eligible. *)
Theorem pick_remote_address_bounded (la : loop_arguments) :
  largs_wf la ->
  exists k : nat,
    Z.of_nat k < n_addrs la /\
    pick_remote_address la
      = Some (candidate la (Z.of_nat k),
              set_address_offset la
                (wrap_uint (address_offset la + Z.of_nat k + 1))) /\
    (forall j : nat, (j < k)%nat ->
       entry_skip_eligible la (candidate la (Z.of_nat j)) = true) /\
    (entry_skip_eligible la (candidate la (Z.of_nat k)) = false \/
     (entry_skip_eligible la (candidate la (Z.of_nat k)) = true /\
      Z.of_nat k = n_addrs la - 1)).
Proof.
  intros (Hn & Hlen & Hc).
  destruct (pick_scan_spec (n_addrs la) (stats la) Hn Hlen
              (Z.to_nat (n_addrs la)) (address_offset la) 0)
    as (k & Hk & Heq & Hbefore & Hat); [lia|assumption|].
  exists k. split; [lia|]. unfold pick_remote_address. rewrite Heq.
  split; [reflexivity|]. unfold entry_skip_eligible, candidate. split.
  - intros j Hj. destruct (Hbefore j Hj) as (rs & -> & Hs). assumption.
  - destruct Hat as (rs & -> & [Hs|[Hs Hlast]]); [left; assumption|right].
    split; [assumption|lia].
Qed.

(** The theorem at a pool of two whose cursor is at the end of its
    range. *)
Lemma pick_remote_address_bounded_witness :
  largs_wf largs_pool_of_two /\
  exists k : nat,
    Z.of_nat k < n_addrs largs_pool_of_two /\
    pick_remote_address largs_pool_of_two
      = Some (candidate largs_pool_of_two (Z.of_nat k),
              set_address_offset largs_pool_of_two
                (wrap_uint (address_offset largs_pool_of_two + Z.of_nat k + 1))) /\
    (forall j : nat, (j < k)%nat ->
       entry_skip_eligible largs_pool_of_two
         (candidate largs_pool_of_two (Z.of_nat j)) = true) /\
    (entry_skip_eligible largs_pool_of_two
       (candidate largs_pool_of_two (Z.of_nat k)) = false \/
     (entry_skip_eligible largs_pool_of_two
        (candidate largs_pool_of_two (Z.of_nat k)) = true /\
      Z.of_nat k = n_addrs largs_pool_of_two - 1)).
Proof.
  assert (Hwf : largs_wf largs_pool_of_two).
  { unfold largs_wf, largs_pool_of_two, UINT_MOD. cbn. lia. }
  split; [exact Hwf|].
  exact (pick_remote_address_bounded largs_pool_of_two Hwf).
Defined.

(** Without a wrap of the cursor inside the scan the [N] candidates are
    the [N] entries, and a live entry keeps the picker away from the
    dead ones. *)
Lemma pick_remote_address_avoids_dead (la : loop_arguments) (live : nat) :
  largs_wf la ->
  address_offset la + n_addrs la <= UINT_MOD ->
  Z.of_nat live < n_addrs la ->
  entry_skip_eligible la live = false ->
  exists i la', pick_remote_address la = Some (i, la') /\
                entry_skip_eligible la i = false.
Proof.
  intros (Hn & Hlen & Hc) Hnowrap Hlive Hok.
  destruct (pick_scan_spec (n_addrs la) (stats la) Hn Hlen
              (Z.to_nat (n_addrs la)) (address_offset la) 0)
    as (k & Hk & Heq & Hbefore & Hat); [lia|assumption|].
  unfold pick_remote_address. rewrite Heq. eexists _, _. split; [reflexivity|].
  unfold entry_skip_eligible.
  destruct Hat as (rs & Hrs & [Hs|[Hs Hlast]]); rewrite Hrs; [assumption|].
  exfalso.
  set (c := address_offset la) in *. set (n := n_addrs la) in *.
  pose (j := (Z.of_nat live - c) mod n).
  assert (Hj : 0 <= j < n) by (apply Z.mod_pos_bound; lia).
  assert (Hcand : wrap_uint (c + j) mod n = Z.of_nat live).
  { rewrite wrap_uint_small by lia. unfold j.
    rewrite Zplus_mod_idemp_r.
    replace (c + (Z.of_nat live - c)) with (Z.of_nat live) by lia.
    apply Z.mod_small. lia. }
  assert (Hjk : (Z.to_nat j < k)%nat \/ Z.to_nat j = k) by lia.
  unfold entry_skip_eligible in Hok.
  destruct Hjk as [Hjk| <-].
  - destruct (Hbefore _ Hjk) as (rs' & Hl & Hs').
    rewrite Z2Nat.id, Hcand, Nat2Z.id in Hl by lia.
    rewrite Hl in Hok. congruence.
  - rewrite Z2Nat.id, Hcand, Nat2Z.id in Hrs by lia.
    rewrite Hrs in Hok. congruence.
Qed.

(** *** A worker whose cursor reaches the end of its range *)

Lemma pick_remote_address_two_dead (k : Z) :
  0 <= k -> 3 * k + 3 < UINT_MOD ->
  pick_remote_address (largs (world_two_dead k))
  = Some (2%nat, set_address_offset (largs (world_two_dead k)) (3 * k + 3)).
Proof.
  intros Hk Hmax. unfold UINT_MOD in Hmax. unfold pick_remote_address. cbn [largs world_two_dead n_addrs stats address_offset].
  change (Z.to_nat 3) with 3%nat. cbn [pick_scan].
  assert (H0 : (3 * k) mod 3 = 0) by (rewrite Z.mul_comm; apply Z_mod_mult).
  assert (H1 : (3 * k + 1) mod 3 = 1)
    by (rewrite Z.add_comm, Z.mul_comm, Z_mod_plus_full; reflexivity).
  assert (H2 : (3 * k + 1 + 1) mod 3 = 2).
  { replace (3 * k + 1 + 1) with (2 + k * 3) by lia.
    rewrite Z_mod_plus_full. reflexivity. }
  rewrite H0, (wrap_uint_small (3 * k + 1)) by (unfold UINT_MOD; lia). cbn [lookup list_lookup Z.to_nat].
  change (skip_eligible (RemoteStats 11 11)) with true. cbv iota.
  rewrite H1, (wrap_uint_small (3 * k + 1 + 1)) by (unfold UINT_MOD; lia).
  change (Z.to_nat 1) with 1%nat. cbn [lookup list_lookup].
  change (skip_eligible (RemoteStats 11 11)) with true. cbv iota.
  rewrite H2, (wrap_uint_small (3 * k + 1 + 1 + 1)) by (unfold UINT_MOD; lia).
  change (Z.to_nat 2) with 2%nat. cbn [lookup list_lookup].
  assert (Hlive : skip_eligible (RemoteStats k 0) = false).
  { unfold skip_eligible. cbn [connection_attempts connection_failures].
    destruct (Z.ltb_spec 10 k); destruct (Z.eqb_spec 0 k); try reflexivity; lia. }
  rewrite Hlive. do 3 f_equal. lia.
Qed.

Lemma dispatch_two_dead (k : Z) :
  0 <= k -> 3 * k + 3 < UINT_MOD ->
  dispatch (ControlReadable (ReadByte "c")
              (Syscalls (SocketError 24) 0 ConnectDone 1024))
    (world_two_dead k)
  = Running (world_two_dead (k + 1)).
Proof.
  intros Hk Hmax. cbn [dispatch control_watcher world_two_dead].
  unfold control_cb. change (Ascii.eqb "c" "c") with true. cbv iota.
  unfold start_new_connection.
  rewrite (pick_remote_address_two_dead k Hk Hmax).
  cbn. unfold world_two_dead, set_largs, set_stats. cbn.
  do 3 f_equal. lia.
Qed.

Lemma reachable_world_two_dead (n : nat) :
  3 * (11 + Z.of_nat n) < UINT_MOD ->
  reachable (world_two_dead (11 + Z.of_nat n)).
Proof.
  induction n as [|n IH]; intros Hmax.
  - apply (reachable_run events_two_dead
             (single_engine_loop_thread (engine_loop_args 3 0 0))).
    + apply (reachable_start 3 0 1 [engine_loop_args 3 0 0]);
        [lia|reflexivity|apply list_elem_of_here].
    + vm_compute. reflexivity.
  - eapply reachable_step; [apply IH; lia|].
    rewrite dispatch_two_dead by lia. do 2 f_equal. lia.
Qed.

(** C1, at the input where it fails. The worker is one the engine
    reaches: thread 0 over three addresses of which the first two
    refuse every connection, after enough 'c' bytes to bring the cursor
    to [2^32 - 1]. In the scan the cursor wraps to 0, and [2^32] is not
    a multiple of 3: the three candidates are the entries 0, 0 and 1,
    entry 2 is never looked at, and the dead entry 1 is returned
    although entry 2 is live. *)
Theorem pick_remote_address_cursor_wrap :
  reachable (world_two_dead 1431655765) /\
  largs_wf largs_cursor_at_max /\
  address_offset largs_cursor_at_max = UINT_MOD - 1 /\
  entry_skip_eligible largs_cursor_at_max 2 = false /\
  map (candidate largs_cursor_at_max) [0; 1; 2] = [0%nat; 0%nat; 1%nat] /\
  pick_remote_address largs_cursor_at_max
    = Some (1%nat, set_address_offset largs_cursor_at_max 2) /\
  entry_skip_eligible largs_cursor_at_max 1 = true.
Proof.
  split; [|split; [|vm_compute; auto 6]].
  - pose proof (reachable_world_two_dead (Z.to_nat 1431655754)) as H.
    rewrite Z2Nat.id in H by lia.
    apply H. unfold UINT_MOD. lia.
  - unfold largs_wf, largs_cursor_at_max, UINT_MOD. cbn. lia.
Qed.

(** ** The payload stream *)

Lemma length_mjoin_replicate {A} (l : list A) (n : nat) :
  length (mjoin (replicate n l)) = (n * length l)%nat.
Proof.
  induction n as [|n IH]; [reflexivity|].
  cbn [replicate]. change (mjoin (l :: replicate n l)) with (l ++ mjoin (replicate n l)).
  rewrite length_app, IH. reflexivity.
Qed.

(** Byte [i] of the repeated payload is byte [i mod L] of the payload. *)
Lemma lookup_mjoin_replicate {A} (l : list A) (n i : nat) :
  (i < n * length l)%nat ->
  mjoin (replicate n l) !! i = l !! (i mod length l)%nat.
Proof.
  revert i. induction n as [|n IH]; intros i Hi; [lia|].
  cbn [replicate]. change (mjoin (l :: replicate n l)) with (l ++ mjoin (replicate n l)).
  destruct (decide (i < length l)%nat) as [Hlt|Hge].
  - rewrite lookup_app_l, Nat.mod_small by assumption. reflexivity.
  - rewrite lookup_app_r by lia. rewrite IH by lia. f_equal.
    replace i with ((i - length l) + 1 * length l)%nat at 2 by lia.
    rewrite Nat.Div0.mod_add. reflexivity.
Qed.

Section stream.

Variable la : loop_arguments.
Hypothesis Hwf : payload_wf la.

(** Inside the buffer the chunk runs from the offset to the end; at the
    end the offset goes back to 0 and the chunk is the whole buffer. *)
Lemma largest_contiguous_chunk_cases (offset : Z) :
  0 <= offset <= sample_data_size la ->
  exists offset',
    largest_contiguous_chunk la offset
      = (offset', sample_data_size la - offset', offset') /\
    0 <= offset' < sample_data_size la /\
    offset' mod sample_data_size la = offset mod sample_data_size la.
Proof.
  destruct Hwf as [HL _]. intros Hoff. unfold largest_contiguous_chunk, wrap_size.
  rewrite Z.mod_small by lia.
  destruct (Z.eqb_spec (sample_data_size la - offset) 0) as [Heq|Hne].
  - exists 0. rewrite Z.sub_0_r. split; [reflexivity|]. split; [lia|].
    replace offset with (sample_data_size la) by lia.
    rewrite Z.mod_same by lia. reflexivity.
  - exists offset. split; [reflexivity|]. split; [lia|reflexivity].
Qed.

Lemma pump_lookup (writes : list Z) :
  forall offset : Z,
  0 <= offset <= sample_data_size la ->
  writes_fit la offset writes ->
  Z.of_nat (length (pump la offset writes).1) = foldr Z.add 0 writes /\
  0 <= (pump la offset writes).2 <= sample_data_size la /\
  forall i : nat, (i < length (pump la offset writes).1)%nat ->
    (pump la offset writes).1 !! i
      = sample_data la !! Z.to_nat ((offset + Z.of_nat i) mod sample_data_size la).
Proof.
  destruct Hwf as [HL Hlen].
  induction writes as [|wrote writes IH]; intros offset Hoff Hfit.
  - cbn. split; [reflexivity|]. split; [lia|]. intros i Hi. lia.
  - cbn [pump writes_fit] in *.
    destruct (largest_contiguous_chunk_cases offset Hoff) as (offset' & Hchunk & Hoff' & Hmod).
    rewrite Hchunk in *. destruct Hfit as [Hw Hfit].
    specialize (IH (offset' + wrote) ltac:(lia) Hfit).
    destruct (pump la (offset' + wrote) writes) as [sent final] eqn:Hpump.
    cbn [fst snd] in *. destruct IH as (IHlen & IHfinal & IHlookup).
    assert (Hbytes : length (payload_bytes la offset' wrote) = Z.to_nat wrote).
    { unfold payload_bytes. rewrite length_take, length_drop. lia. }
    rewrite length_app, Hbytes. split; [cbn [foldr]; lia|]. split; [assumption|].
    intros i Hi.
    assert (Hshift : (offset + Z.of_nat i) mod sample_data_size la
                     = (offset' + Z.of_nat i) mod sample_data_size la).
    { rewrite (Zplus_mod offset), (Zplus_mod offset'), Hmod. reflexivity. }
    rewrite Hshift.
    destruct (decide (i < Z.to_nat wrote)%nat) as [Hlt|Hge].
    + rewrite lookup_app_l by lia. unfold payload_bytes.
      rewrite lookup_take_lt, lookup_drop by assumption.
      rewrite Z.mod_small by lia. f_equal. lia.
    + rewrite lookup_app_r by lia. rewrite Hbytes, IHlookup by lia.
      do 3 f_equal. lia.
Qed.

Lemma length_payload_stream (n : nat) : length (payload_stream la n) = n.
Proof.
  destruct Hwf as [HL Hlen]. unfold payload_stream.
  rewrite length_take, length_mjoin_replicate. nia.
Qed.

Lemma lookup_payload_stream (n i : nat) :
  (i < n)%nat ->
  payload_stream la n !! i
    = sample_data la !! Z.to_nat (Z.of_nat i mod sample_data_size la).
Proof.
  destruct Hwf as [HL Hlen]. intros Hi. unfold payload_stream.
  rewrite lookup_take_lt by assumption.
  rewrite lookup_mjoin_replicate by nia. f_equal.
  rewrite <- Hlen, <- Nat2Z.inj_mod, Nat2Z.id. reflexivity.
Qed.

End stream.

Lemma written_app (fd : Z) (tr1 tr2 : list effect) :
  written fd (tr1 ++ tr2) = written fd tr1 ++ written fd tr2.
Proof.
  induction tr1 as [|[fd' bytes| |] tr1 IH]; cbn; try assumption.
  - reflexivity.
  - destruct (fd' =? fd); [rewrite IH, app_assoc|]; auto.
Qed.

(** [pump] is what [connection_cb] does to a live connection of a
    worker that is not terminating: over the readiness events of the
    connection the bytes written to its socket are those of [pump], and
    its write offset ends where [pump] ends. *)
Lemma connection_cb_pump (id : nat) (writes : list Z) :
  forall (w : world) (conn : connection),
  terminating w = false ->
  conns w !! id = Some conn ->
  exists w' conn',
    run (write_events id writes) w = Running w' /\
    largs w' = largs w /\
    conns w' !! id = Some conn' /\
    sockfd conn' = sockfd conn /\
    write_offset conn' = (pump (largs w) (write_offset conn) writes).2 /\
    written (sockfd conn) (trace w')
      = written (sockfd conn) (trace w)
        ++ (pump (largs w) (write_offset conn) writes).1.
Proof.
  induction writes as [|wrote writes IH]; intros w conn Hterm Hid.
  - exists w, conn. cbn. rewrite app_nil_r. auto 6.
  - cbn [write_events fmap list_fmap run dispatch]. rewrite Hid.
    unfold connection_cb. unfold terminating in Hterm. rewrite Hterm.
    change (negb (Z.land EV_WRITE EV_WRITE =? 0)) with true. cbv iota.
    cbn [pump].
    destruct (largest_contiguous_chunk (largs w) (write_offset conn))
      as [[position available] offset] eqn:Hchunk.
    cbn [write_offset data_transmitted remote sockfd].
    match goal with |- context [run _ ?w1] => set (w1' := w1) end.
    destruct (IH w1' (Connection (offset + wrote)
                        (wrap_size (data_transmitted conn + wrote))
                        (remote conn) (sockfd conn)))
      as (w' & conn' & Hrun & Hla & Hid' & Hfd & Hoff & Hwr).
    { exact Hterm. }
    { subst w1'. cbn. apply lookup_insert_eq. }
    exists w', conn'. fold (write_events id writes). rewrite Hrun.
    cbn [write_offset sockfd] in Hoff, Hwr, Hfd.
    change (largs w1') with (largs w) in Hla, Hoff, Hwr.
    destruct (pump (largs w) (offset + wrote) writes) as [sent final].
    cbn [fst snd] in *. repeat split; try assumption.
    rewrite Hwr. subst w1'. cbn [trace emit set_conns].
    rewrite written_app. cbn [written]. rewrite Z.eqb_refl, app_nil_r, app_assoc.
    reflexivity.
Qed.

(** C2. For a payload of length [L >= 1] and a write offset that starts
    at 0, whatever the lengths the writes accept (each between 0 and the
    chunk that was offered), the bytes sent are the first bytes of the
    payload repeated, as many as the writes accepted. At offset [L] the
    chunk computation puts the offset back to 0 and offers the whole
    buffer. *)
Theorem pump_sends_payload_stream (la : loop_arguments) (writes : list Z) :
  payload_wf la ->
  writes_fit la 0 writes ->
  (pump la 0 writes).1 = payload_stream la (Z.to_nat (foldr Z.add 0 writes)) /\
  0 <= foldr Z.add 0 writes /\
  largest_contiguous_chunk la (sample_data_size la)
    = (0, sample_data_size la, 0).
Proof.
  intros Hwf Hfit. pose proof Hwf as [HL Hlen].
  destruct (pump_lookup la Hwf writes 0 ltac:(lia) Hfit) as (Hsum & _ & Hlookup).
  split; [|split; [lia|]].
  - apply list_eq. intros i.
    destruct (decide (i < length (pump la 0 writes).1)%nat) as [Hlt|Hge].
    + rewrite Hlookup, lookup_payload_stream by (assumption || lia).
      reflexivity.
    + rewrite (lookup_ge_None_2 (pump la 0 writes).1) by lia.
      rewrite lookup_ge_None_2; [reflexivity|].
      rewrite length_payload_stream by assumption. lia.
  - unfold largest_contiguous_chunk, wrap_size. rewrite Z.sub_diag. reflexivity.
Qed.

(** The scenario of a payload of three bytes written two bytes, then
    one, then two, then one. *)
Example pump_abc :
  pump largs_thread0 0 [2; 1; 2; 1]
  = (["a"; "b"; "c"; "a"; "b"; "c"]%char, 3).
Proof. reflexivity. Qed.

Lemma pump_sends_payload_stream_witness :
  payload_wf largs_thread0 /\
  writes_fit largs_thread0 0 [2; 1; 3; 0; 1] /\
  (pump largs_thread0 0 [2; 1; 3; 0; 1]).1
    = payload_stream largs_thread0 (Z.to_nat (foldr Z.add 0 [2; 1; 3; 0; 1])) /\
  0 <= foldr Z.add 0 [2; 1; 3; 0; 1] /\
  largest_contiguous_chunk largs_thread0 (sample_data_size largs_thread0)
    = (0, sample_data_size largs_thread0, 0).
Proof.
  assert (Hwf : payload_wf largs_thread0).
  { unfold payload_wf, SIZE_MOD. cbn. lia. }
  assert (Hfit : writes_fit largs_thread0 0 [2; 1; 3; 0; 1]).
  { vm_compute. repeat split; discriminate. }
  split; [exact Hwf|]. split; [exact Hfit|].
  exact (pump_sends_payload_stream largs_thread0 [2; 1; 3; 0; 1] Hwf Hfit).
Defined.

(** ** Engine start *)

(** The selection moves the cursor and nothing else. *)
Lemma pick_remote_address_frame (la la' : loop_arguments) (i : nat) :
  pick_remote_address la = Some (i, la') ->
  la' = set_address_offset la (address_offset la').
Proof.
  unfold pick_remote_address.
  destruct (pick_scan _ _ _ _ _) as [[off cursor]|]; [|discriminate].
  intros [= <- <-]. reflexivity.
Qed.

(** No event touches the payload of a worker. *)
Lemma dispatch_payload (ev : event) (w w' : world) :
  dispatch ev w = Running w' ->
  sample_data (largs w') = sample_data (largs w) /\
  sample_data_size (largs w') = sample_data_size (largs w).
Proof.
  destruct ev as [ans env|id revents ans]; cbn.
  - unfold control_cb, start_new_connection.
    destruct (pick_remote_address (largs w)) as [[i la]|] eqn:Hpick.
    + rewrite (pick_remote_address_frame _ _ _ Hpick).
      intros Hrun. repeat case_match; simplify_eq; cbn; auto.
    + intros Hrun. repeat case_match; simplify_eq; cbn; auto.
  - unfold connection_cb, fold_and_close.
    intros Hrun. repeat case_match; simplify_eq; cbn; auto.
Qed.

Lemma run_payload (evs : list event) (w w' : world) :
  run evs w = Running w' ->
  sample_data (largs w') = sample_data (largs w) /\
  sample_data_size (largs w') = sample_data_size (largs w).
Proof.
  revert w. induction evs as [|ev evs IH]; intros w Hrun; cbn in Hrun.
  - injection Hrun as <-. auto.
  - destruct (dispatch ev w) as [w1|] eqn:Hstep; [|discriminate].
    destruct (dispatch_payload _ _ _ Hstep) as [<- <-]. auto.
Qed.

(** C3 as stated fails: were the payload an input of [start_engine],
    the workers would hold whatever payload the caller has; the engine
    has no such input and the worker of a one-CPU engine holds "abc"
    when the caller's payload is "x". *)
Lemma start_engine_payload_not_input :
  ~ (forall (payload : list ascii) (addresses rd_pipe ncpus : Z)
            (las : list loop_arguments) (la : loop_arguments),
       1 <= addresses ->
       start_engine addresses rd_pipe ncpus = Some las ->
       la ∈ las ->
       sample_data la = payload /\
       sample_data_size la = Z.of_nat (length payload)).
Proof.
  intros H.
  destruct (H ["x"%char] 1 0 1 [engine_loop_args 1 0 0] (engine_loop_args 1 0 0))
    as [Hdata _].
  - lia.
  - reflexivity.
  - apply list_elem_of_here.
  - discriminate Hdata.
Qed.

(** C3, amended. [start_engine] takes the address pool (and the
    environment's pipe and CPU count) and no payload: it makes one
    worker per CPU, and every worker is handed the three bytes "abc"
    with the length 3, a pool-sized table of zeroed statistics, its
    thread number as cursor and no open connection. Whatever events
    its loop handles, the payload of the worker stays these three
    bytes. *)
Theorem start_engine_fixed_payload (addresses rd_pipe ncpus : Z)
    (las : list loop_arguments) :
  start_engine addresses rd_pipe ncpus = Some las ->
  length las = Z.to_nat ncpus /\
  1 <= ncpus /\
  forall (n : nat) (la : loop_arguments),
    las !! n = Some la ->
    sample_data la = ["a"; "b"; "c"]%char /\
    sample_data_size la = 3 /\
    n_addrs la = addresses /\
    stats la = replicate (Z.to_nat addresses) (RemoteStats 0 0) /\
    address_offset la = wrap_uint (Z.of_nat n) /\
    thread_no la = Z.of_nat n /\
    open_connections la = 0 /\
    total_data_transmitted la = 0 /\
    thread_flags la = 0 /\
    forall (evs : list event) (w : world),
      run evs (single_engine_loop_thread la) = Running w ->
      sample_data (largs w) = ["a"; "b"; "c"]%char /\
      sample_data_size (largs w) = 3.
Proof.
  unfold start_engine. destruct (Z.ltb_spec ncpus 1) as [|Hn]; [discriminate|].
  intros [= <-]. rewrite length_fmap, length_seqZ. split; [reflexivity|].
  split; [assumption|]. intros n la Hla.
  rewrite list_lookup_fmap in Hla.
  destruct (seqZ 0 ncpus !! n) as [z|] eqn:Hz; [|discriminate].
  apply lookup_seqZ in Hz as [-> _]. injection Hla as <-.
  rewrite Z.add_0_l. do 9 (split; [reflexivity|]).
  intros evs w Hrun. destruct (run_payload _ _ _ Hrun) as [-> ->].
  split; reflexivity.
Qed.

Lemma start_engine_fixed_payload_witness :
  start_engine 2 5 2 = Some [engine_loop_args 2 5 0; engine_loop_args 2 5 1] /\
  sample_data (engine_loop_args 2 5 1) = ["a"; "b"; "c"]%char /\
  sample_data_size (engine_loop_args 2 5 1) = 3.
Proof.
  assert (H : start_engine 2 5 2
              = Some [engine_loop_args 2 5 0; engine_loop_args 2 5 1])
    by reflexivity.
  split; [exact H|].
  destruct (start_engine_fixed_payload 2 5 2 _ H) as (_ & _ & Hall).
  destruct (Hall 1%nat (engine_loop_args 2 5 1) eq_refl) as (Hd & Hs & _).
  split; [exact Hd|exact Hs].
Defined.

(** ** Connection establishment *)

(** C6. When the socket is there and [connect] fails with an error that
    is not [EINPROGRESS], the worker goes on with the failures of the
    chosen address incremented (after its attempts), the socket closed,
    the connections and their count as they were, and one log line
    exactly when no failure had been recorded against the address. *)
Theorem start_new_connection_connect_error (w : world) (env : syscalls)
    (i : nat) (la : loop_arguments) (rs : remote_stats) (fd errno : Z) :
  pick_remote_address (largs w) = Some (i, la) ->
  stats (largs w) !! i = Some rs ->
  socket_ans env = SocketFd fd ->
  fcntl_ans env <> -1 ->
  connect_ans env = ConnectError errno ->
  errno <> EINPROGRESS ->
  exists w',
    start_new_connection env w = Running w' /\
    stats (largs w')
      = <[i := RemoteStats (connection_attempts rs + 1)
                (connection_failures rs + 1)]> (stats (largs w)) /\
    failures_at (largs w') i = connection_failures rs + 1 /\
    conns w' = conns w /\
    open_connections (largs w') = open_connections (largs w) /\
    trace w'
      = trace w
        ++ (if connection_failures rs =? 0
            then [ELog (LogNotDone i errno)] else [])
        ++ [EClose fd].
Proof.
  intros Hpick Hrs Hsock Hfcntl Hconn Herr.
  pose proof (pick_remote_address_frame _ _ _ Hpick) as Hla.
  assert (Hstats : stats la = stats (largs w)) by (rewrite Hla; reflexivity).
  assert (Hopen : open_connections la = open_connections (largs w))
    by (rewrite Hla; reflexivity).
  unfold start_new_connection. rewrite Hpick, Hstats, Hrs, Hsock, Hconn.
  destruct (Z.eqb_spec (fcntl_ans env) (-1)) as [|_]; [contradiction|].
  destruct (Z.eqb_spec errno EINPROGRESS) as [|_]; [contradiction|].
  cbn [connection_failures incr_failures incr_attempts connection_attempts].
  eexists. split; [reflexivity|].
  assert (Hi : (i < length (stats (largs w)))%nat) by (eapply lookup_lt_Some; eassumption).
  destruct (Z.eqb_spec (connection_failures rs + 1) 1) as [H1|H1];
    destruct (Z.eqb_spec (connection_failures rs) 0) as [H0|H0]; try lia;
    cbn; rewrite ?Hstats, ?list_insert_insert_eq;
    (split; [reflexivity|]); unfold failures_at; cbn;
    rewrite list_lookup_insert_eq by assumption;
    repeat split; try reflexivity; try assumption;
    rewrite <- ?app_assoc; reflexivity.
Qed.

Lemma start_new_connection_connect_error_witness :
  exists w',
    start_new_connection env_refused world_thread0 = Running w' /\
    stats (largs w') = [RemoteStats 1 1] /\
    conns w' = ∅ /\
    trace w' = [ELog (LogNotDone 0 111); EClose 7].
Proof.
  destruct (start_new_connection_connect_error world_thread0 env_refused
              0 (set_address_offset largs_thread0 1) (RemoteStats 0 0) 7 111)
    as (w' & Hrun & Hstats & _ & Hconns & _ & Htrace);
    [reflexivity|reflexivity|reflexivity|discriminate|reflexivity|discriminate|].
  exists w'. split; [exact Hrun|]. split; [exact Hstats|].
  split; [exact Hconns|exact Htrace].
Defined.

(** C7. When the socket call fails, the world is the one the call was
    made in: the cursor where the selection left it, the attempts of
    the chosen address incremented, every other field as before. With
    [ENFILE] the process logs the limit on open files and exits with
    status 1; with any other error the worker goes on in that world,
    with nothing logged, closed or allocated. *)
Theorem start_new_connection_socket_error (w : world) (env : syscalls)
    (i : nat) (la : loop_arguments) (rs : remote_stats) (errno : Z) :
  pick_remote_address (largs w) = Some (i, la) ->
  stats (largs w) !! i = Some rs ->
  socket_ans env = SocketError errno ->
  let attempted :=
    LoopArguments (n_addrs (largs w)) (sample_data (largs w))
      (sample_data_size (largs w))
      (<[i := RemoteStats (connection_attempts rs + 1)
                (connection_failures rs)]> (stats (largs w)))
      (address_offset la) (control_pipe (largs w)) (thread_no (largs w))
      (total_data_transmitted (largs w)) (thread_flags (largs w))
      (open_connections (largs w)) in
  (errno = ENFILE ->
   start_new_connection env w
   = Stopped (Exit 1)
       (World attempted (conns w) (control_watcher w)
          (trace w ++ [ELog (LogSocketTableFull (open_max env))]))) /\
  (errno <> ENFILE ->
   start_new_connection env w
   = Running (World attempted (conns w) (control_watcher w) (trace w))).
Proof.
  intros Hpick Hrs Hsock attempted.
  pose proof (pick_remote_address_frame _ _ _ Hpick) as Hla.
  assert (Hstats : stats la = stats (largs w)) by (rewrite Hla; reflexivity).
  assert (Hatt : set_stats la (<[i := incr_attempts rs]> (stats la)) = attempted).
  { rewrite Hstats. subst attempted. rewrite Hla at 1. reflexivity. }
  unfold start_new_connection. rewrite Hpick, Hstats, Hrs, Hsock.
  rewrite <- Hstats, Hatt.
  split; intros Herr.
  - subst errno. reflexivity.
  - destruct (Z.eqb_spec errno ENFILE) as [|_]; [contradiction|]. reflexivity.
Qed.

Lemma start_new_connection_socket_error_witness :
  start_new_connection env_table_full world_thread0
  = Stopped (Exit 1)
      (World (set_stats (set_address_offset largs_thread0 1) [RemoteStats 1 0])
         ∅ true [ELog (LogSocketTableFull 1024)]) /\
  start_new_connection env_no_descriptor world_thread0
  = Running
      (World (set_stats (set_address_offset largs_thread0 1) [RemoteStats 1 0])
         ∅ true []).
Proof.
  split.
  - apply (start_new_connection_socket_error world_thread0 env_table_full
             0 (set_address_offset largs_thread0 1) (RemoteStats 0 0) ENFILE);
      reflexivity.
  - apply (start_new_connection_socket_error world_thread0 env_no_descriptor
             0 (set_address_offset largs_thread0 1) (RemoteStats 0 0) 24);
      first [reflexivity|discriminate].
Defined.

(** ** Failed writes *)

Lemma reachable_world_thread0 : reachable world_thread0.
Proof.
  apply (reachable_start 1 0 1 [largs_thread0] largs_thread0).
  - lia.
  - reflexivity.
  - apply list_elem_of_here.
Qed.

Lemma reachable_world_offset_at_end : reachable world_offset_at_end.
Proof.
  apply (reachable_run events_offset_at_end world_thread0).
  - apply reachable_world_thread0.
  - vm_compute. reflexivity.
Qed.

(** C8 as stated fails. A connection whose first write took the whole
    payload has its write offset at the end, 3. On the next readiness
    event the chunk computation puts the offset back to 0 before the
    write; the write fails with error 11, which is not [EPIPE], and the
    connection is left with the write offset 0. *)
Lemma connection_cb_write_error_moves_offset :
  ~ (forall (w : world) (id : nat) (conn : connection) (revents errno : Z),
       reachable w ->
       conns w !! id = Some conn ->
       terminating w = false ->
       Z.land revents EV_WRITE <> 0 ->
       errno <> EPIPE ->
       conns (connection_cb id conn revents (WriteError errno) w) !! id
         = Some conn /\
       largs (connection_cb id conn revents (WriteError errno) w) = largs w).
Proof.
  intros H.
  destruct (H world_offset_at_end 0%nat (Connection 3 3 0 7) EV_WRITE 11)
    as [Hconn _].
  - apply reachable_world_offset_at_end.
  - reflexivity.
  - reflexivity.
  - discriminate.
  - discriminate.
  - vm_compute in Hconn. discriminate Hconn.
Qed.

(** C8, amended. A write that fails with an error other than [EPIPE]
    leaves the worker (statistics, open-connection count, aggregate
    byte counter), the trace, the control watcher and every other
    connection as they were, and leaves the connection registered with
    its bytes-sent counter, address and socket unchanged; its write
    offset is unchanged when it is inside the buffer, and an offset at
    the end of the buffer has been put back to 0 by the chunk
    computation. *)
Theorem connection_cb_write_error_frame (w : world) (id : nat)
    (conn : connection) (revents errno : Z) :
  conns w !! id = Some conn ->
  terminating w = false ->
  Z.land revents EV_WRITE <> 0 ->
  errno <> EPIPE ->
  0 <= write_offset conn <= sample_data_size (largs w) ->
  sample_data_size (largs w) < SIZE_MOD ->
  connection_cb id conn revents (WriteError errno) w
    = World (largs w)
        (<[id := Connection
                   (if write_offset conn =? sample_data_size (largs w)
                    then 0 else write_offset conn)
                   (data_transmitted conn) (remote conn) (sockfd conn)]>
           (conns w))
        (control_watcher w) (trace w) /\
  (write_offset conn < sample_data_size (largs w) ->
   connection_cb id conn revents (WriteError errno) w = w).
Proof.
  intros Hid Hterm Hev Herr Hoff Hsize.
  assert (Hcb : connection_cb id conn revents (WriteError errno) w
    = World (largs w)
        (<[id := Connection
                   (if write_offset conn =? sample_data_size (largs w)
                    then 0 else write_offset conn)
                   (data_transmitted conn) (remote conn) (sockfd conn)]>
           (conns w))
        (control_watcher w) (trace w)).
  { unfold connection_cb. unfold terminating in Hterm. rewrite Hterm.
    destruct (Z.eqb_spec (Z.land revents EV_WRITE) 0) as [|_]; [contradiction|].
    cbn [negb]. unfold largest_contiguous_chunk, wrap_size.
    rewrite Z.mod_small by lia.
    destruct (Z.eqb_spec errno EPIPE) as [|_]; [contradiction|].
    destruct (Z.eqb_spec (sample_data_size (largs w) - write_offset conn) 0);
      destruct (Z.eqb_spec (write_offset conn) (sample_data_size (largs w)));
      try lia; reflexivity. }
  split; [exact Hcb|]. intros Hlt. rewrite Hcb.
  destruct (Z.eqb_spec (write_offset conn) (sample_data_size (largs w))); [lia|].
  destruct conn, w. cbn in *. rewrite insert_id by assumption. reflexivity.
Qed.

Lemma connection_cb_write_error_frame_witness :
  connection_cb 0 (Connection 3 3 0 7) EV_WRITE (WriteError 11)
    world_offset_at_end
  = World (largs world_offset_at_end) {[0%nat := Connection 0 3 0 7]} true
      (trace world_offset_at_end).
Proof.
  destruct (connection_cb_write_error_frame world_offset_at_end 0
              (Connection 3 3 0 7) EV_WRITE 11) as [Hcb _];
    [reflexivity|reflexivity|discriminate|discriminate
    |cbn; lia|unfold SIZE_MOD; cbn; lia|].
  rewrite Hcb. vm_compute. reflexivity.
Defined.

(** ** Invariants of a worker *)

Section invariants.

Implicit Types (w : world) (m : gmap nat connection) (conn : connection).

Lemma conns_to_insert (j id : nat) conn m :
  conns_to j (<[id := conn]> m)
  = if decide (remote conn = j) then S (conns_to j (delete id m))
    else conns_to j (delete id m).
Proof.
  unfold conns_to. rewrite map_filter_insert. cbn.
  destruct (decide (remote conn = j)) as [Heq|Hne]; [|reflexivity].
  rewrite <- insert_delete_eq, map_size_insert_None by apply lookup_delete_eq.
  rewrite map_filter_delete. reflexivity.
Qed.

Lemma conns_to_delete (j id : nat) conn m :
  m !! id = Some conn ->
  conns_to j m
  = if decide (remote conn = j) then S (conns_to j (delete id m))
    else conns_to j (delete id m).
Proof.
  intros Hid. rewrite <- (insert_delete_id m id conn Hid) at 1.
  rewrite conns_to_insert, delete_delete_eq. reflexivity.
Qed.

Lemma fresh_conn_free m : delete (fresh (dom m)) m = m.
Proof. apply delete_id, not_elem_of_dom, is_fresh. Qed.

Lemma size_delete_live (id : nat) conn m :
  m !! id = Some conn -> size m = S (size (delete id m)).
Proof.
  intros Hid. rewrite <- (insert_delete_id m id conn Hid) at 1.
  apply map_size_insert_None, lookup_delete_eq.
Qed.

(** *** The count of open connections *)

Lemma start_new_connection_count (env : syscalls) w w' :
  start_new_connection env w = Running w' -> count_inv w -> count_inv w'.
Proof.
  unfold start_new_connection, count_inv. intros Hrun Hinv.
  destruct (pick_remote_address (largs w)) as [[i la]|] eqn:Hpick; [|discriminate].
  pose proof (pick_remote_address_frame _ _ _ Hpick) as Hla.
  assert (Hopen : open_connections la = open_connections (largs w))
    by (rewrite Hla; reflexivity).
  clear Hla Hpick.
  repeat case_match; simplify_eq; cbn;
    rewrite ?map_size_insert_None by (apply not_elem_of_dom, is_fresh); lia.
Qed.

Lemma fold_and_close_count (id : nat) conn conn' w :
  conns w !! id = Some conn' -> count_inv w ->
  count_inv (fold_and_close id conn w).
Proof.
  unfold count_inv, fold_and_close. cbn. intros Hid Hinv.
  rewrite (size_delete_live id conn' (conns w) Hid) in Hinv. lia.
Qed.

Lemma connection_cb_count (id : nat) conn (revents : Z) (ans : write_answer) w :
  conns w !! id = Some conn -> count_inv w ->
  count_inv (connection_cb id conn revents ans w).
Proof.
  intros Hid Hinv. unfold connection_cb.
  destruct (negb _); [eapply fold_and_close_count; eassumption|].
  destruct (negb _); [|assumption].
  destruct (largest_contiguous_chunk _ _) as [[position available] offset].
  assert (Hsame : forall c : connection, size (<[id := c]> (conns w)) = size (conns w)).
  { intros c. apply map_size_insert_Some. eauto. }
  destruct ans as [wrote|errno].
  - unfold count_inv. cbn. rewrite insert_insert_eq, Hsame. assumption.
  - destruct (errno =? EPIPE).
    + unfold count_inv, fold_and_close. cbn.
      rewrite delete_insert_eq. unfold count_inv in Hinv.
      rewrite (size_delete_live id conn (conns w) Hid) in Hinv. lia.
    + unfold count_inv. cbn. rewrite Hsame. assumption.
Qed.

Lemma dispatch_count (ev : event) w w' :
  dispatch ev w = Running w' -> count_inv w -> count_inv w'.
Proof.
  destruct ev as [ans env|id revents ans]; cbn.
  - destruct (control_watcher w); [|intros [= <-]; auto].
    unfold control_cb. destruct ans as [c|errno].
    + destruct (Ascii.eqb c "c"); [apply start_new_connection_count|].
      destruct (Ascii.eqb c "b"); intros [= <-]; auto.
    + intros [= <-]. auto.
  - destruct (conns w !! id) as [conn|] eqn:Hid; intros [= <-]; [|auto].
    apply connection_cb_count. assumption.
Qed.

(** *** Failures against attempts *)

Lemma start_new_connection_health (env : syscalls) w w' :
  start_new_connection env w = Running w' -> health_inv w -> health_inv w'.
Proof.
  unfold start_new_connection, health_inv. intros Hrun Hinv j rs'.
  destruct (pick_remote_address (largs w)) as [[i la]|] eqn:Hpick; [|discriminate].
  pose proof (pick_remote_address_frame _ _ _ Hpick) as Hla.
  assert (Hstats : stats la = stats (largs w)) by (rewrite Hla; reflexivity).
  clear Hla Hpick. rewrite Hstats in Hrun.
  destruct (stats (largs w) !! i) as [rs|] eqn:Hrs; [|discriminate].
  pose proof (Hinv i rs Hrs) as Hi.
  assert (Hlt : (i < length (stats (largs w)))%nat) by (eapply lookup_lt_Some; eassumption).
  repeat case_match; simplify_eq; cbn;
    rewrite ?Hstats, ?list_insert_insert_eq, ?conns_to_insert, ?fresh_conn_free;
    (destruct (decide (i = j)) as [->|Hne];
     [rewrite list_lookup_insert_eq by assumption; intros [= <-]; cbn;
      rewrite ?decide_True by reflexivity; lia
     |rewrite list_lookup_insert_ne by assumption; intros Hj;
      rewrite ?decide_False by assumption; apply Hinv; assumption]).
Qed.

Lemma fold_and_close_health (id : nat) conn w :
  health_inv w -> health_inv (fold_and_close id conn w).
Proof.
  unfold health_inv, fold_and_close. cbn. intros Hinv j rs Hj.
  specialize (Hinv j rs Hj).
  destruct (conns w !! id) as [conn'|] eqn:Hid.
  - rewrite (conns_to_delete j id conn' (conns w) Hid) in Hinv.
    destruct (decide (remote conn' = j)); lia.
  - rewrite delete_id by assumption. assumption.
Qed.

Lemma connection_cb_health (id : nat) conn (revents : Z) (ans : write_answer) w :
  conns w !! id = Some conn -> health_inv w ->
  health_inv (connection_cb id conn revents ans w).
Proof.
  intros Hid Hinv. unfold connection_cb.
  destruct (negb _); [apply fold_and_close_health; assumption|].
  destruct (negb _); [|assumption].
  destruct (largest_contiguous_chunk _ _) as [[position available] offset].
  assert (Hsame : forall (j : nat) (c : connection), remote c = remote conn ->
            conns_to j (<[id := c]> (conns w)) = conns_to j (conns w)).
  { intros j c Hc. rewrite conns_to_insert, (conns_to_delete j id conn (conns w) Hid), Hc.
    reflexivity. }
  destruct ans as [wrote|errno].
  - unfold health_inv. cbn. rewrite insert_insert_eq. intros j rs Hj.
    rewrite Hsame by reflexivity. apply Hinv. assumption.
  - destruct (errno =? EPIPE).
    + unfold health_inv, fold_and_close. cbn. rewrite delete_insert_eq.
      intros j rs Hj.
      destruct (decide (remote conn = j)) as [Heq|Hne].
      * rewrite <- Heq, list_lookup_alter_eq in Hj.
        destruct (stats (largs w) !! remote conn) as [rs0|] eqn:Hrs0; [|discriminate].
        injection Hj as <-. cbn.
        pose proof (Hinv _ rs0 Hrs0) as Hle.
        rewrite (conns_to_delete _ id conn (conns w) Hid), decide_True in Hle
          by reflexivity.
        rewrite <- Heq. lia.
      * rewrite list_lookup_alter_ne in Hj by assumption.
        pose proof (Hinv j rs Hj) as Hle.
        rewrite (conns_to_delete j id conn (conns w) Hid), decide_False in Hle
          by assumption.
        assumption.
    + unfold health_inv. cbn. intros j rs Hj.
      rewrite Hsame by reflexivity. apply Hinv. assumption.
Qed.

Lemma dispatch_health (ev : event) w w' :
  dispatch ev w = Running w' -> health_inv w -> health_inv w'.
Proof.
  destruct ev as [ans env|id revents ans]; cbn.
  - destruct (control_watcher w); [|intros [= <-]; auto].
    unfold control_cb. destruct ans as [c|errno].
    + destruct (Ascii.eqb c "c"); [apply start_new_connection_health|].
      destruct (Ascii.eqb c "b"); intros [= <-]; auto.
    + intros [= <-]. auto.
  - destruct (conns w !! id) as [conn|] eqn:Hid; intros [= <-]; [|auto].
    apply connection_cb_health. assumption.
Qed.

Lemma engine_loop_args_invs (las : list loop_arguments) (la : loop_arguments)
    (addresses rd_pipe ncpus : Z) :
  start_engine addresses rd_pipe ncpus = Some las ->
  la ∈ las ->
  count_inv (single_engine_loop_thread la) /\
  health_inv (single_engine_loop_thread la).
Proof.
  unfold start_engine. destruct (ncpus <? 1); [discriminate|].
  intros [= <-] Hla. apply list_elem_of_fmap in Hla as (n & -> & _).
  split.
  - reflexivity.
  - intros i rs Hrs. cbn in Hrs. apply lookup_replicate_1 in Hrs as [-> _].
    cbn. unfold conns_to. rewrite map_filter_empty, map_size_empty. lia.
Qed.

Lemma reachable_invs w : reachable w -> count_inv w /\ health_inv w.
Proof.
  induction 1 as [addresses rd_pipe ncpus las la _ Hstart Hla|w ev w' _ [IHc IHh] Hstep].
  - eapply engine_loop_args_invs; eassumption.
  - split; [eapply dispatch_count|eapply dispatch_health]; eassumption.
Qed.

End invariants.

(** C4. In every world a worker can reach from the start of the engine
    by control bytes and readiness events, every entry of the table has
    [failures <= attempts]: an attempt is counted before the socket
    call, the connect-error path counts its failure against that
    attempt, and the broken-pipe path counts one against the attempt
    that made the connection, which is closed there and is not called
    back again. *)
Theorem failures_le_attempts (w : world) (i : nat) (rs : remote_stats) :
  reachable w ->
  stats (largs w) !! i = Some rs ->
  connection_failures rs <= connection_attempts rs.
Proof.
  intros Hw Hrs. destruct (reachable_invs w Hw) as [_ Hh].
  specialize (Hh i rs Hrs). lia.
Qed.

Lemma failures_le_attempts_witness :
  reachable world_broken_pipe /\
  stats (largs world_broken_pipe) !! 0%nat = Some (RemoteStats 1 1) /\
  connection_failures (RemoteStats 1 1) <= connection_attempts (RemoteStats 1 1).
Proof.
  assert (Hw : reachable world_broken_pipe).
  { apply (reachable_run events_broken_pipe world_thread0).
    - apply reachable_world_thread0.
    - vm_compute. reflexivity. }
  split; [exact Hw|]. split; [reflexivity|].
  exact (failures_le_attempts world_broken_pipe 0 (RemoteStats 1 1) Hw eq_refl).
Defined.

(** C10. In every world a worker can reach, its open-connection count
    is the number of its live connections, so it is not negative; and
    over every event the count moves as the number of live connections
    does: up by one when [start_new_connection] registers a connection,
    down by one when [connection_cb] closes one. *)
Theorem open_connections_counts_live (w : world) :
  reachable w ->
  open_connections (largs w) = Z.of_nat (size (conns w)) /\
  0 <= open_connections (largs w) /\
  forall (ev : event) (w' : world),
    dispatch ev w = Running w' ->
    open_connections (largs w') - open_connections (largs w)
      = Z.of_nat (size (conns w')) - Z.of_nat (size (conns w)).
Proof.
  intros Hw. destruct (reachable_invs w Hw) as [Hc _].
  unfold count_inv in Hc. split; [assumption|]. split; [lia|].
  intros ev w' Hstep.
  pose proof (dispatch_count ev w w' Hstep Hc) as Hc'. unfold count_inv in Hc'.
  lia.
Qed.

Lemma open_connections_counts_live_witness :
  reachable world_offset_at_end /\
  open_connections (largs world_offset_at_end)
    = Z.of_nat (size (conns world_offset_at_end)) /\
  0 <= open_connections (largs world_offset_at_end).
Proof.
  split; [exact reachable_world_offset_at_end|].
  destruct (open_connections_counts_live world_offset_at_end
              reachable_world_offset_at_end) as (Hc & Hpos & _).
  split; [exact Hc|exact Hpos].
Defined.

(** ** Termination *)

Lemma terminating_after_b (w : world) : terminating (after_b w) = true.
Proof.
  unfold terminating, after_b. cbn.
  destruct (Z.eqb_spec (Z.land (Z.lor (thread_flags (largs w)) THREAD_TERMINATING)
                          THREAD_TERMINATING) 0) as [Heq|]; [|reflexivity].
  rewrite Z.land_lor_distr_l in Heq. apply Z.lor_eq_0_iff in Heq as [_ Heq].
  discriminate Heq.
Qed.

Lemma connection_cb_terminating (id : nat) (conn : connection) (revents : Z)
    (ans : write_answer) (w : world) :
  terminating w = true ->
  connection_cb id conn revents ans w = torn_down id conn w.
Proof.
  unfold terminating, connection_cb. intros ->. reflexivity.
Qed.

(** A worker that is terminating and has stopped its control watcher
    stays so, keeps running, and leaves no trace. *)
Lemma dispatch_terminated (ev : event) (w : world) :
  terminating w = true -> control_watcher w = false ->
  exists w', dispatch ev w = Running w' /\
             terminating w' = true /\ control_watcher w' = false /\
             trace w' = trace w.
Proof.
  intros Hterm Hctl. destruct ev as [ans env|id revents ans]; cbn.
  - rewrite Hctl. eauto.
  - destruct (conns w !! id) as [conn|]; [|eauto].
    rewrite connection_cb_terminating by assumption.
    eexists. split; [reflexivity|]. auto.
Qed.

Lemma run_terminated (evs : list event) (w : world) :
  terminating w = true -> control_watcher w = false ->
  exists w', run evs w = Running w' /\
             terminating w' = true /\ control_watcher w' = false /\
             trace w' = trace w.
Proof.
  revert w. induction evs as [|ev evs IH]; intros w Hterm Hctl; cbn.
  - eauto.
  - destruct (dispatch_terminated ev w Hterm Hctl) as (w1 & -> & Hterm1 & Hctl1 & Htr1).
    destruct (IH w1 Hterm1 Hctl1) as (w' & Hrun & Hterm' & Hctl' & Htr').
    exists w'. rewrite Htr', Htr1. auto.
Qed.

(** C5. Reading the byte 'b' sets the termination flag and stops the
    control watcher. From then on, whatever events the loop delivers,
    the worker keeps running with the flag set and the watcher stopped,
    and its trace stays what it was: no byte of the payload is written.
    Every readiness event on a connection it still owns, whatever the
    event mask and whatever a write would have answered, adds the
    connection's byte count to the aggregate, takes one off the
    open-connection count and closes the connection. *)
Theorem terminated_worker_only_closes (w : world) (env : syscalls)
    (evs : list event) :
  control_cb (ReadByte "b") env w = Running (after_b w) /\
  terminating (after_b w) = true /\
  control_watcher (after_b w) = false /\
  exists w1,
    run evs (after_b w) = Running w1 /\
    terminating w1 = true /\
    control_watcher w1 = false /\
    trace w1 = trace w /\
    forall (id : nat) (conn : connection) (revents : Z) (ans : write_answer),
      conns w1 !! id = Some conn ->
      dispatch (SocketReady id revents ans) w1 = Running (torn_down id conn w1).
Proof.
  split; [reflexivity|]. split; [apply terminating_after_b|].
  split; [reflexivity|].
  destruct (run_terminated evs (after_b w) (terminating_after_b w) eq_refl)
    as (w1 & Hrun & Hterm & Hctl & Htr).
  exists w1. repeat split; try assumption.
  intros id conn revents ans Hid. cbn. rewrite Hid.
  rewrite connection_cb_terminating by assumption. reflexivity.
Qed.

(** The theorem at the worker whose connection has sent the payload
    once: after 'b' a 'c' byte is not read any more, and the readiness
    event closes the connection although the write would have taken
    three bytes. *)
Lemma terminated_worker_only_closes_witness :
  exists w1,
    run [ControlReadable (ReadByte "c") env_in_progress]
      (after_b world_offset_at_end) = Running w1 /\
    trace w1 = trace world_offset_at_end /\
    conns w1 !! 0%nat = Some (Connection 3 3 0 7) /\
    dispatch (SocketReady 0 EV_WRITE (Wrote 3)) w1
      = Running (torn_down 0 (Connection 3 3 0 7) w1).
Proof.
  destruct (terminated_worker_only_closes world_offset_at_end env_in_progress
              [ControlReadable (ReadByte "c") env_in_progress])
    as (_ & _ & _ & w1 & Hrun & _ & _ & Htr & Hall).
  exists w1. split; [exact Hrun|]. split; [exact Htr|].
  assert (Hid : conns w1 !! 0%nat = Some (Connection 3 3 0 7)).
  { cbn in Hrun. injection Hrun as <-. reflexivity. }
  split; [exact Hid|].
  exact (Hall 0%nat (Connection 3 3 0 7) EV_WRITE (Wrote 3) Hid).
Defined.

(** * Further properties *)

(** ** Well-formed worlds *)

Lemma pick_scan_range (n : Z) (tbl : list remote_stats) (iters : nat) :
  1 <= n ->
  forall (cursor off off' cursor' : Z),
  0 <= cursor < UINT_MOD -> 0 <= off < n ->
  pick_scan iters n tbl cursor off = Some (off', cursor') ->
  0 <= off' < n /\ 0 <= cursor' < UINT_MOD.
Proof.
  intros Hn. induction iters as [|iters IH]; intros cursor off off' cursor' Hc Hoff; cbn.
  - intros [= <- <-]. auto.
  - destruct (tbl !! Z.to_nat (cursor mod n)) as [rs|]; [|discriminate].
    pose proof (Z.mod_pos_bound cursor n ltac:(lia)) as Hm.
    pose proof (wrap_uint_range (cursor + 1)) as Hw.
    destruct (skip_eligible rs).
    + apply IH; assumption.
    + intros [= <- <-]. auto.
Qed.

Lemma pick_remote_address_wf (la la' : loop_arguments) (i : nat) :
  largs_wf la ->
  pick_remote_address la = Some (i, la') ->
  largs_wf la' /\ (i < length (stats la))%nat /\ stats la' = stats la.
Proof.
  intros (Hn & Hlen & Hc). unfold pick_remote_address.
  destruct (pick_scan _ _ _ _ _) as [[off cursor]|] eqn:Hscan; [|discriminate].
  intros [= <- <-].
  assert (H0 : 0 <= 0 < n_addrs la) by lia.
  destruct (pick_scan_range _ _ _ Hn _ _ _ _ Hc H0 Hscan) as [Hoff Hcur].
  unfold largs_wf. cbn. repeat split; try assumption; try reflexivity; lia.
Qed.

Lemma start_new_connection_wf (env : syscalls) (w w' : world) :
  start_new_connection env w = Running w' -> world_wf w -> world_wf w'.
Proof.
  unfold start_new_connection. intros Hrun (Hwf & Htot & Hconns).
  destruct (pick_remote_address (largs w)) as [[i la]|] eqn:Hpick; [|discriminate].
  destruct (pick_remote_address_wf _ _ _ Hwf Hpick) as ((Hn & Hlen & Hc) & Hi & Hstats).
  pose proof (pick_remote_address_frame _ _ _ Hpick) as Hla.
  assert (Htot' : total_data_transmitted la = total_data_transmitted (largs w))
    by (rewrite Hla; reflexivity).
  assert (Hold : forall (id : nat) (conn : connection),
            conns w !! id = Some conn -> (remote conn < length (stats la))%nat).
  { intros id conn Hid. rewrite Hstats. eapply Hconns. eassumption. }
  unfold world_wf, largs_wf, conns_in_table.
  repeat case_match; simplify_eq; cbn; rewrite ?length_insert, ?Htot';
    (split; [lia|]); (split; [assumption|]); try assumption.
  all: intros id conn; rewrite lookup_insert; case_decide;
    [intros [= <-]; cbn; rewrite Hstats; assumption|apply Hold].
Qed.

Lemma wrap_size_range (x : Z) : 0 <= wrap_size x < SIZE_MOD.
Proof. apply Z.mod_pos_bound. reflexivity. Qed.

Lemma fold_and_close_wf (id : nat) (conn : connection) (w : world) :
  world_wf w -> world_wf (fold_and_close id conn w).
Proof.
  intros (Hwf & Htot & Hconns). unfold world_wf, conns_in_table, fold_and_close.
  cbn. split; [exact Hwf|]. split; [apply wrap_size_range|].
  intros id' conn' Hid'. apply lookup_delete_Some in Hid' as [_ Hid'].
  eapply Hconns. eassumption.
Qed.

Lemma connection_cb_wf (id : nat) (conn : connection) (revents : Z)
    (ans : write_answer) (w : world) :
  conns w !! id = Some conn -> world_wf w ->
  world_wf (connection_cb id conn revents ans w).
Proof.
  intros Hid Hw. unfold connection_cb.
  destruct (negb _); [apply fold_and_close_wf; assumption|].
  destruct (negb _); [|assumption].
  destruct (largest_contiguous_chunk _ _) as [[position available] offset].
  pose proof Hw as (Hwf & Htot & Hconns).
  pose proof (Hconns id conn Hid) as Hremote.
  assert (Hins : forall c : connection, remote c = remote conn ->
            conns_in_table (set_conns (<[id := c]> (conns w)) w)).
  { intros c Hc id' conn'. cbn. rewrite lookup_insert. case_decide.
    - intros [= <-]. rewrite Hc. assumption.
    - apply Hconns. }
  destruct ans as [wrote|errno].
  - split; [exact Hwf|]. split; [exact Htot|]. cbn.
    intros id' conn'. cbn. rewrite insert_insert_eq.
    apply (Hins (Connection (offset + wrote)
                   (wrap_size (data_transmitted conn + wrote))
                   (remote conn) (sockfd conn)) eq_refl).
  - destruct (errno =? EPIPE).
    + apply fold_and_close_wf. split; [|split].
      * destruct Hwf as (Hn & Hlen & Hc). unfold largs_wf. cbn.
        rewrite length_alter. auto.
      * exact Htot.
      * intros id' conn'. cbn. rewrite length_alter.
        apply (Hins (Connection offset (data_transmitted conn)
                       (remote conn) (sockfd conn)) eq_refl).
    + split; [exact Hwf|]. split; [exact Htot|].
      apply (Hins (Connection offset (data_transmitted conn)
                     (remote conn) (sockfd conn)) eq_refl).
Qed.

Lemma dispatch_wf (ev : event) (w w' : world) :
  dispatch ev w = Running w' -> world_wf w -> world_wf w'.
Proof.
  destruct ev as [ans env|id revents ans]; cbn.
  - destruct (control_watcher w); [|intros [= <-]; auto].
    unfold control_cb. destruct ans as [c|errno].
    + destruct (Ascii.eqb c "c"); [apply start_new_connection_wf|].
      destruct (Ascii.eqb c "b"); intros [= <-]; auto.
    + intros [= <-]. auto.
  - destruct (conns w !! id) as [conn|] eqn:Hid; intros [= <-]; [|auto].
    apply connection_cb_wf. assumption.
Qed.

Lemma reachable_wf (w : world) : reachable w -> world_wf w.
Proof.
  induction 1 as [addresses rd_pipe ncpus las la Hn Hstart Hla|w ev w' _ IH Hstep].
  - unfold start_engine in Hstart. destruct (ncpus <? 1); [discriminate|].
    injection Hstart as <-. apply list_elem_of_fmap in Hla as (n & -> & _).
    split; [|split].
    + unfold largs_wf. cbn. rewrite length_replicate.
      pose proof (wrap_uint_range n). split; [assumption|]. split; [lia|assumption].
    + cbn. unfold SIZE_MOD. lia.
    + intros id conn Hid. cbn in Hid. rewrite lookup_empty in Hid. discriminate.
  - eapply dispatch_wf; eassumption.
Qed.

(** ** How a worker stops *)

Lemma pick_remote_address_total (la : loop_arguments) :
  largs_wf la -> exists i la', pick_remote_address la = Some (i, la').
Proof.
  intros (Hn & Hlen & Hc).
  destruct (pick_scan_spec (n_addrs la) (stats la) Hn Hlen
              (Z.to_nat (n_addrs la)) (address_offset la) 0)
    as (k & _ & Heq & _); [lia|assumption|].
  unfold pick_remote_address. rewrite Heq. eauto.
Qed.

Lemma start_new_connection_stops (env : syscalls) (w w' : world) (why : stop) :
  world_wf w ->
  start_new_connection env w = Stopped why w' ->
  (why = Exit 1 /\ socket_ans env = SocketError ENFILE) \/
  (why = AssertFailed /\ fcntl_ans env = -1 /\
   exists fd, socket_ans env = SocketFd fd).
Proof.
  intros (Hwf & _ & _). unfold start_new_connection.
  destruct (pick_remote_address_total (largs w) Hwf) as (i & la & Hpick).
  rewrite Hpick.
  destruct (pick_remote_address_wf _ _ _ Hwf Hpick) as (_ & Hi & Hstats).
  rewrite Hstats. destruct (lookup_lt_is_Some_2 _ _ Hi) as [rs ->].
  destruct (socket_ans env) as [fd|errno].
  - destruct (Z.eqb_spec (fcntl_ans env) (-1)) as [Hf|Hf].
    + intros [= <- _]. right. eauto.
    + destruct (connect_ans env) as [|errno]; [discriminate|].
      destruct (errno =? EINPROGRESS); discriminate.
  - destruct (Z.eqb_spec errno ENFILE) as [->|]; [|discriminate].
    intros [= <- _]. left. auto.
Qed.



Lemma run_stops (evs : list event) :
  forall (w w' : world) (why : stop),
  world_wf w ->
  run evs w = Stopped why w' ->
  why = Exit 1 \/ why = AssertFailed.
Proof.
  induction evs as [|ev evs IH]; intros w w' why Hw; cbn; [discriminate|].
  destruct (dispatch ev w) as [w1|why1 w1] eqn:Hstep.
  - apply IH. eapply dispatch_wf; eassumption.
  - intros [= <- <-]. destruct ev as [ans env|id revents ans]; cbn in Hstep.
    + destruct (control_watcher w); [|discriminate].
      unfold control_cb in Hstep. destruct ans as [c|errno]; [|discriminate].
      destruct (Ascii.eqb c "c").
      * destruct (start_new_connection_stops _ _ _ _ Hw Hstep) as [[-> _]|[-> _]]; auto.
      * destruct (Ascii.eqb c "b"); discriminate.
    + destruct (conns w !! id); discriminate.
Qed.

(** X2. A worker of an engine over a non-empty pool never reads or
    writes outside its statistics table: whatever the events, its loop
    stops only through [exit(1)] or through the failed assertion on
    [fcntl]; and a 'c' byte stops it exactly when the socket call fails
    with [ENFILE] or [fcntl] answers -1, and lets it go on otherwise. *)
Theorem worker_stops_only_by_exit_or_assert (w : world) :
  reachable w ->
  (forall (evs : list event) (w' : world) (why : stop),
     run evs w = Stopped why w' -> why = Exit 1 \/ why = AssertFailed) /\
  (forall (env : syscalls),
     match start_new_connection env w with
     | Running _ =>
         socket_ans env <> SocketError ENFILE /\
         (fcntl_ans env = -1 -> exists errno, socket_ans env = SocketError errno)
     | Stopped why _ =>
         (why = Exit 1 /\ socket_ans env = SocketError ENFILE) \/
         (why = AssertFailed /\ fcntl_ans env = -1 /\
          exists fd, socket_ans env = SocketFd fd)
     end).
Proof.
  intros Hw. pose proof (reachable_wf w Hw) as Hwf. split.
  - intros evs w' why. apply run_stops. assumption.
  - intros env.
    destruct (start_new_connection env w) as [w1|why w1] eqn:Hrun.
    + revert Hrun. unfold start_new_connection.
      destruct (pick_remote_address (largs w)) as [[i la]|]; [|discriminate].
      destruct (stats la !! i); [|discriminate].
      destruct (socket_ans env) as [fd|errno].
      * destruct (Z.eqb_spec (fcntl_ans env) (-1)); [discriminate|].
        intros _. split; [discriminate|]. intros. contradiction.
      * destruct (Z.eqb_spec errno ENFILE); [discriminate|].
        intros _. split; [congruence|]. eauto.
    + eapply start_new_connection_stops; eassumption.
Qed.

Lemma worker_stops_only_by_exit_or_assert_witness :
  reachable world_thread0 /\
  run [ControlReadable (ReadByte "c") env_table_full] world_thread0
    = Stopped (Exit 1)
        (World (set_stats (set_address_offset largs_thread0 1) [RemoteStats 1 0])
           ∅ true [ELog (LogSocketTableFull 1024)]) /\
  (Exit 1 = Exit 1 \/ Exit 1 = AssertFailed).
Proof.
  split; [exact reachable_world_thread0|]. split; [reflexivity|].
  destruct (worker_stops_only_by_exit_or_assert world_thread0
              reachable_world_thread0) as [Hstops _].
  exact (Hstops [ControlReadable (ReadByte "c") env_table_full] _ (Exit 1) eq_refl).
Defined.

(** ** Termination and the control watcher *)

Lemma start_new_connection_flags (env : syscalls) (w : world) :
  thread_flags (largs (result_world (start_new_connection env w)))
    = thread_flags (largs w) /\
  control_watcher (result_world (start_new_connection env w))
    = control_watcher w.
Proof.
  unfold start_new_connection.
  destruct (pick_remote_address (largs w)) as [[i la]|] eqn:Hpick; [|auto].
  pose proof (pick_remote_address_frame _ _ _ Hpick) as Hla.
  assert (Hflags : thread_flags la = thread_flags (largs w))
    by (rewrite Hla; reflexivity).
  repeat case_match; cbn; auto.
Qed.

Lemma connection_cb_flags (id : nat) (conn : connection) (revents : Z)
    (ans : write_answer) (w : world) :
  thread_flags (largs (connection_cb id conn revents ans w))
    = thread_flags (largs w) /\
  control_watcher (connection_cb id conn revents ans w) = control_watcher w.
Proof.
  unfold connection_cb, fold_and_close. repeat case_match; cbn; auto.
Qed.

Lemma dispatch_terminating (ev : event) (w w' : world) :
  dispatch ev w = Running w' ->
  terminating w = negb (control_watcher w) ->
  terminating w' = negb (control_watcher w').
Proof.
  unfold terminating. destruct ev as [ans env|id revents ans]; cbn.
  - destruct (control_watcher w) eqn:Hctl; [|intros [= <-]; rewrite Hctl; auto].
    unfold control_cb. destruct ans as [c|errno].
    + destruct (Ascii.eqb c "c").
      * intros Hrun Hinv.
        destruct (start_new_connection_flags env w) as [Hf Hc].
        rewrite Hrun in Hf, Hc. cbn in Hf, Hc. rewrite Hf, Hc, Hctl. assumption.
      * destruct (Ascii.eqb c "b"); intros [= <-] Hinv; cbn; [|rewrite Hctl; assumption].
        apply (terminating_after_b w).
    + intros [= <-] Hinv. cbn. rewrite Hctl. assumption.
  - destruct (conns w !! id) as [conn|]; intros [= <-] Hinv; [|assumption].
    destruct (connection_cb_flags id conn revents ans w) as [-> ->]. assumption.
Qed.

Lemma reachable_terminating (w : world) :
  reachable w -> terminating w = negb (control_watcher w).
Proof.
  induction 1 as [addresses rd_pipe ncpus las la Hn Hstart Hla|w ev w' _ IH Hstep].
  - unfold start_engine in Hstart. destruct (ncpus <? 1); [discriminate|].
    injection Hstart as <-. apply list_elem_of_fmap in Hla as (n & -> & _).
    reflexivity.
  - eapply dispatch_terminating; eassumption.
Qed.

(** X3. In every world a worker can reach, the termination flag is set
    exactly when the control watcher is stopped; so a worker that is
    terminating reads no further command, and a worker whose loop has no
    watcher left (its control watcher stopped, no connection live) is
    terminating with an open-connection count of 0. *)
Theorem terminating_iff_control_stopped (w : world) :
  reachable w ->
  terminating w = negb (control_watcher w) /\
  (terminating w = true ->
   forall (ans : read_answer) (env : syscalls),
     dispatch (ControlReadable ans env) w = Running w) /\
  (control_watcher w = false -> conns w = ∅ ->
   terminating w = true /\ open_connections (largs w) = 0).
Proof.
  intros Hw. pose proof (reachable_terminating w Hw) as Hinv.
  destruct (reachable_invs w Hw) as [Hcount _].
  split; [assumption|]. split.
  - intros Hterm ans env. cbn. rewrite Hterm in Hinv.
    destruct (control_watcher w); [discriminate|reflexivity].
  - intros Hctl Hnone. rewrite Hctl in Hinv. split; [assumption|].
    unfold count_inv in Hcount. rewrite Hcount, Hnone, map_size_empty. reflexivity.
Qed.

(** ** Dead addresses *)

Lemma conns_to_zero (i id : nat) (conn : connection) (m : gmap nat connection) :
  conns_to i m = 0%nat -> m !! id = Some conn -> remote conn <> i.
Proof.
  intros Hzero Hid Heq. rewrite (conns_to_delete i id conn m Hid) in Hzero.
  rewrite decide_True in Hzero by assumption. discriminate.
Qed.

(** X4. In every world a worker can reach, an address whose entry is
    skip-eligible has no live connection: all its attempts have been
    counted as failures, so none of them is a connection still open. *)
Theorem dead_address_has_no_connection (w : world) (i : nat)
    (rs : remote_stats) (id : nat) (conn : connection) :
  reachable w ->
  stats (largs w) !! i = Some rs ->
  skip_eligible rs = true ->
  conns w !! id = Some conn ->
  remote conn <> i.
Proof.
  intros Hw Hrs Hskip Hid. destruct (reachable_invs w Hw) as [_ Hh].
  specialize (Hh i rs Hrs). unfold skip_eligible in Hskip.
  apply andb_prop in Hskip as [_ Heq]. apply Z.eqb_eq in Heq.
  apply (conns_to_zero i id conn (conns w)); [lia|assumption].
Qed.

(** ** Round robin *)

Lemma pick_remote_address_first (la : loop_arguments) :
  largs_wf la ->
  entry_skip_eligible la (candidate la 0) = false ->
  pick_remote_address la
  = Some (candidate la 0,
          set_address_offset la (wrap_uint (address_offset la + 1))).
Proof.
  intros (Hn & Hlen & Hc). unfold entry_skip_eligible, candidate, pick_remote_address.
  rewrite Z.add_0_r, wrap_uint_small by assumption.
  destruct (Z.to_nat (n_addrs la)) as [|k] eqn:Hk; [lia|]. cbn [pick_scan].
  destruct (stats la !! Z.to_nat (address_offset la mod n_addrs la)) as [rs|] eqn:Hrs.
  - intros ->. reflexivity.
  - apply lookup_ge_None_1 in Hrs.
    pose proof (Z.mod_pos_bound (address_offset la) (n_addrs la)). lia.
Qed.

Lemma candidate_shift (la : loop_arguments) (j : Z) :
  candidate (set_address_offset la (wrap_uint (address_offset la + 1))) j
  = candidate la (1 + j).
Proof. unfold candidate. cbn. rewrite wrap_uint_succ. reflexivity. Qed.

Lemma pick_many_healthy (k : nat) :
  forall la : loop_arguments,
  largs_wf la ->
  Forall (fun rs => skip_eligible rs = false) (stats la) ->
  pick_many k la
  = Some ((fun j : nat => candidate la (Z.of_nat j)) <$> seq 0 k,
          set_address_offset la (wrap_uint (address_offset la + Z.of_nat k))).
Proof.
  induction k as [|k IH]; intros la Hwf Hall.
  - cbn. destruct Hwf as (_ & _ & Hc). rewrite Z.add_0_r, wrap_uint_small by assumption.
    destruct la. reflexivity.
  - cbn [pick_many]. rewrite pick_remote_address_first; [|assumption|].
    + set (la' := set_address_offset la (wrap_uint (address_offset la + 1))).
      assert (Hwf' : largs_wf la').
      { destruct Hwf as (Hn & Hlen & Hc). unfold largs_wf. cbn.
        pose proof (wrap_uint_range (address_offset la + 1)). auto. }
      rewrite (IH la' Hwf' Hall). cbn [seq fmap list_fmap].
      rewrite <- fmap_S_seq, <- list_fmap_compose.
      assert (Hl : (fun j : nat => candidate la' (Z.of_nat j)) <$> seq 0 k
                   = (fun j : nat => candidate la (Z.of_nat j)) ∘ S <$> seq 0 k).
      { apply list_fmap_ext. intros _ j _. cbn [compose]. subst la'.
        rewrite candidate_shift. f_equal. lia. }
      assert (Hc : set_address_offset la' (wrap_uint (address_offset la' + Z.of_nat k))
                   = set_address_offset la
                       (wrap_uint (address_offset la + Z.of_nat (S k)))).
      { subst la'. unfold set_address_offset. cbn. f_equal.
        rewrite wrap_uint_succ. f_equal. lia. }
      rewrite Hl, Hc. reflexivity.
    + unfold entry_skip_eligible.
      destruct (stats la !! candidate la 0) as [rs|] eqn:Hrs; [|reflexivity].
      eapply Forall_lookup_1 in Hall; eauto.
Qed.

(** X5. Round robin over a table in which no entry is skip-eligible:
    [k] selections in a row return the addresses at the cursor, the
    cursor plus one, and so on, each modulo the pool size, and leave the
    cursor [k] further (modulo [2^32]). When the cursor does not wrap,
    as many selections as there are addresses reach every address. *)
Theorem pick_many_round_robin (la : loop_arguments) (k : nat) :
  largs_wf la ->
  Forall (fun rs => skip_eligible rs = false) (stats la) ->
  pick_many k la
  = Some ((fun j : nat => candidate la (Z.of_nat j)) <$> seq 0 k,
          set_address_offset la (wrap_uint (address_offset la + Z.of_nat k))) /\
  (address_offset la + n_addrs la <= UINT_MOD ->
   exists l la',
     pick_many (Z.to_nat (n_addrs la)) la = Some (l, la') /\
     length l = Z.to_nat (n_addrs la) /\
     forall i : nat, Z.of_nat i < n_addrs la -> i ∈ l).
Proof.
  intros Hwf Hall. split; [apply pick_many_healthy; assumption|].
  intros Hnowrap. eexists _, _. split; [apply pick_many_healthy; assumption|].
  rewrite length_fmap, length_seq. split; [reflexivity|].
  intros i Hi. destruct Hwf as (Hn & Hlen & Hc).
  set (c := address_offset la) in *. set (n := n_addrs la) in *.
  pose (j := (Z.of_nat i - c) mod n).
  assert (Hj : 0 <= j < n) by (apply Z.mod_pos_bound; lia).
  apply list_elem_of_fmap. exists (Z.to_nat j). split.
  - unfold candidate. fold c n. rewrite Z2Nat.id by lia.
    rewrite wrap_uint_small by lia. unfold j.
    rewrite Zplus_mod_idemp_r.
    replace (c + (Z.of_nat i - c)) with (Z.of_nat i) by lia.
    rewrite Z.mod_small by lia. lia.
  - apply elem_of_seq. lia.
Qed.

(** X6. The workers of an engine do not start their scans at the same
    place: the first selection of thread [n] returns the address of
    index [n] modulo the pool size and leaves the cursor at [n + 1]. *)
Theorem start_engine_first_pick (addresses rd_pipe ncpus : Z)
    (las : list loop_arguments) (n : nat) (la : loop_arguments) :
  1 <= addresses ->
  start_engine addresses rd_pipe ncpus = Some las ->
  las !! n = Some la ->
  pick_remote_address la
  = Some (Z.to_nat (wrap_uint (Z.of_nat n) mod addresses),
          set_address_offset la (wrap_uint (Z.of_nat n + 1))).
Proof.
  intros Hn. unfold start_engine. destruct (ncpus <? 1); [discriminate|].
  intros [= <-] Hla. rewrite list_lookup_fmap in Hla.
  destruct (seqZ 0 ncpus !! n) as [z|] eqn:Hz; [|discriminate].
  apply lookup_seqZ in Hz as [-> _]. injection Hla as <-. rewrite Z.add_0_l.
  assert (Hwf : largs_wf (engine_loop_args addresses rd_pipe (Z.of_nat n))).
  { unfold largs_wf. cbn. rewrite length_replicate.
    pose proof (wrap_uint_range (Z.of_nat n)). split; [assumption|]. split; [lia|assumption]. }
  rewrite pick_remote_address_first; [|assumption|].
  - unfold candidate. cbn [address_offset n_addrs engine_loop_args].
    rewrite Z.add_0_r, (wrap_uint_small (wrap_uint _)) by apply wrap_uint_range.
    do 3 f_equal. unfold wrap_uint. rewrite Zplus_mod_idemp_l. reflexivity.
  - unfold entry_skip_eligible. cbn [stats engine_loop_args].
    destruct (replicate _ _ !! _) as [rs|] eqn:Hrs; [|reflexivity].
    apply lookup_replicate_1 in Hrs as [-> _]. reflexivity.
Qed.

(** ** No attempt on a dead address *)

Lemma start_new_connection_stats_other (env : syscalls) (w : world)
    (i j : nat) (la : loop_arguments) :
  pick_remote_address (largs w) = Some (i, la) ->
  i <> j ->
  stats (largs (result_world (start_new_connection env w))) !! j
  = stats (largs w) !! j.
Proof.
  intros Hpick Hne. unfold start_new_connection. rewrite Hpick.
  pose proof (pick_remote_address_frame _ _ _ Hpick) as Hla.
  assert (Hstats : stats la = stats (largs w)) by (rewrite Hla; reflexivity).
  repeat case_match; cbn; rewrite ?list_lookup_insert_ne by assumption;
    rewrite ?Hstats; reflexivity.
Qed.

(** X7. While the cursor does not wrap inside the scan and some address
    is not skip-eligible, a 'c' command makes no attempt on a
    skip-eligible address: whatever the system calls answer, the entry
    of every skip-eligible address is left as it was. *)
Theorem no_attempt_on_dead_address (w : world) (env : syscalls)
    (live j : nat) (rs : remote_stats) :
  largs_wf (largs w) ->
  address_offset (largs w) + n_addrs (largs w) <= UINT_MOD ->
  Z.of_nat live < n_addrs (largs w) ->
  entry_skip_eligible (largs w) live = false ->
  stats (largs w) !! j = Some rs ->
  skip_eligible rs = true ->
  stats (largs (result_world (start_new_connection env w))) !! j = Some rs.
Proof.
  intros Hwf Hnowrap Hlive Hok Hrs Hskip.
  destruct (pick_remote_address_avoids_dead (largs w) live Hwf Hnowrap Hlive Hok)
    as (i & la & Hpick & Hi).
  rewrite (start_new_connection_stats_other env w i j la Hpick); [assumption|].
  intros ->. unfold entry_skip_eligible in Hi. rewrite Hrs in Hi. congruence.
Qed.

(** ** The chunk *)

(** X8. For an offset inside the buffer or at its end, the chunk starts
    at the offset the cursor is left at and ends exactly at the end of
    the buffer; computing the chunk again at that offset gives the same
    chunk. A buffer that is not empty gives a chunk that is not empty
    and a cursor inside the buffer; an empty buffer gives the empty
    chunk at 0. *)
Theorem largest_contiguous_chunk_in_bounds (la : loop_arguments) (offset : Z) :
  0 <= offset <= sample_data_size la ->
  sample_data_size la < SIZE_MOD ->
  exists position available offset',
    largest_contiguous_chunk la offset = (position, available, offset') /\
    position = offset' /\
    0 <= position /\
    position + available = sample_data_size la /\
    largest_contiguous_chunk la offset' = (position, available, offset') /\
    (1 <= sample_data_size la ->
     1 <= available /\ offset' < sample_data_size la) /\
    (sample_data_size la = 0 -> available = 0).
Proof.
  intros Hoff Hsize. unfold largest_contiguous_chunk, wrap_size.
  rewrite Z.mod_small by lia.
  destruct (Z.eqb_spec (sample_data_size la - offset) 0) as [Heq|Hne].
  - exists 0, (sample_data_size la), 0. rewrite Z.sub_0_r.
    rewrite Z.mod_small by lia.
    destruct (Z.eqb_spec (sample_data_size la) 0) as [H0|H0];
      repeat split; try reflexivity; lia.
  - exists offset, (sample_data_size la - offset), offset.
    rewrite Z.mod_small by lia.
    destruct (Z.eqb_spec (sample_data_size la - offset) 0); [contradiction|].
    repeat split; try reflexivity; lia.
Qed.

Lemma largest_contiguous_chunk_in_bounds_witness :
  exists position available offset',
    largest_contiguous_chunk largs_thread0 3 = (position, available, offset') /\
    position = offset' /\
    0 <= position /\
    position + available = sample_data_size largs_thread0 /\
    largest_contiguous_chunk largs_thread0 offset'
      = (position, available, offset') /\
    (1 <= sample_data_size largs_thread0 ->
     1 <= available /\ offset' < sample_data_size largs_thread0) /\
    (sample_data_size largs_thread0 = 0 -> available = 0).
Proof.
  apply (largest_contiguous_chunk_in_bounds largs_thread0 3).
  - cbn. lia.
  - unfold SIZE_MOD. cbn. lia.
Defined.

(** ** Byte accounting *)

Lemma conns_bytes_delete (m : gmap nat connection) (id : nat) (conn : connection) :
  m !! id = Some conn ->
  conns_bytes m = data_transmitted conn + conns_bytes (delete id m).
Proof.
  intros Hid. unfold conns_bytes.
  apply (map_fold_delete_L (fun _ c acc => data_transmitted c + acc) 0 id conn m);
    [|assumption].
  intros. lia.
Qed.

Lemma conns_bytes_insert (m : gmap nat connection) (id : nat) (conn : connection) :
  conns_bytes (<[id := conn]> m)
  = data_transmitted conn + conns_bytes (delete id m).
Proof.
  rewrite (conns_bytes_delete (<[id := conn]> m) id conn) by apply lookup_insert_eq.
  rewrite delete_insert_eq. reflexivity.
Qed.

Lemma trace_bytes_app (tr1 tr2 : list effect) :
  trace_bytes (tr1 ++ tr2) = trace_bytes tr1 + trace_bytes tr2.
Proof.
  induction tr1 as [|[fd bytes| |] tr1 IH]; cbn [app trace_bytes]; lia.
Qed.

Lemma wrap_size_idemp_l (a b : Z) : wrap_size (wrap_size a + b) = wrap_size (a + b).
Proof. unfold wrap_size. apply Zplus_mod_idemp_l. Qed.

Lemma wrap_size_add (a b c : Z) :
  wrap_size a = wrap_size b -> wrap_size (a + c) = wrap_size (b + c).
Proof.
  intros H. rewrite <- (wrap_size_idemp_l a), <- (wrap_size_idemp_l b), H.
  reflexivity.
Qed.

Lemma start_new_connection_stream (env : syscalls) (w w' : world) :
  start_new_connection env w = Running w' -> stream_inv w -> stream_inv w'.
Proof.
  unfold start_new_connection. intros Hrun (Hpay & Hoffs & Hacc).
  destruct (pick_remote_address (largs w)) as [[i la]|] eqn:Hpick; [|discriminate].
  pose proof (pick_remote_address_frame _ _ _ Hpick) as Hla.
  assert (Hp : payload_wf la) by (rewrite Hla; exact Hpay).
  assert (Hs : sample_data_size la = sample_data_size (largs w))
    by (rewrite Hla; reflexivity).
  assert (Ht : total_data_transmitted la = total_data_transmitted (largs w))
    by (rewrite Hla; reflexivity).
  assert (Hfresh : forall c : connection, data_transmitted c = 0 ->
            conns_bytes (<[fresh (dom (conns w)) := c]> (conns w))
            = conns_bytes (conns w)).
  { intros c Hc. rewrite conns_bytes_insert, fresh_conn_free, Hc. reflexivity. }
  unfold stream_inv, offsets_in_payload, bytes_accounted in *.
  repeat case_match; simplify_eq; cbn;
    rewrite ?Hs, ?Ht, ?Hfresh, ?trace_bytes_app by reflexivity; cbn;
    rewrite ?Z.add_0_r;
    (split; [exact Hp|]); (split; [|assumption]); try assumption.
  all: intros id conn; rewrite lookup_insert; case_decide;
    [intros [= <-]; cbn; destruct Hpay; lia|apply Hoffs].
Qed.

Lemma fold_and_close_stream (id : nat) (conn : connection) (w : world) :
  conns w !! id = Some conn -> stream_inv w ->
  stream_inv (fold_and_close id conn w).
Proof.
  intros Hid (Hpay & Hoffs & Hacc).
  unfold stream_inv, offsets_in_payload, bytes_accounted, fold_and_close in *. cbn.
  split; [exact Hpay|]. split.
  - intros id' conn' Hid'. apply lookup_delete_Some in Hid' as [_ Hid'].
    eapply Hoffs. eassumption.
  - rewrite <- Hacc, (conns_bytes_delete (conns w) id conn Hid).
    rewrite wrap_size_idemp_l. f_equal. lia.
Qed.

Lemma connection_cb_stream (id : nat) (conn : connection) (revents : Z)
    (ans : write_answer) (w : world) :
  conns w !! id = Some conn ->
  write_fits (SocketReady id revents ans) w ->
  stream_inv w ->
  stream_inv (connection_cb id conn revents ans w).
Proof.
  intros Hid Hfit Hinv. unfold connection_cb.
  destruct (negb _); [apply fold_and_close_stream; assumption|].
  destruct (negb _); [|assumption].
  pose proof Hinv as (Hpay & Hoffs & Hacc).
  pose proof (Hoffs id conn Hid) as Hoff.
  destruct (largest_contiguous_chunk_cases (largs w) Hpay (write_offset conn) Hoff)
    as (offset & Hchunk & Hoffset & _).
  cbn [write_fits] in Hfit. rewrite Hid in Hfit. destruct ans as [wrote|errno].
  - rewrite Hchunk in *. cbn [fst snd] in Hfit. cbn.
    unfold stream_inv, offsets_in_payload, bytes_accounted in *. cbn.
    rewrite insert_insert_eq. split; [exact Hpay|]. split.
    + intros id' conn'. rewrite lookup_insert. case_decide.
      * intros [= <-]. cbn. lia.
      * apply Hoffs.
    + rewrite conns_bytes_insert, trace_bytes_app. cbn.
      assert (Hlen : Z.of_nat (length (payload_bytes (largs w) offset wrote)) = wrote).
      { unfold payload_bytes. rewrite length_take, length_drop.
        destruct Hpay as [_ Hlen]. lia. }
      rewrite Hlen, Z.add_0_r.
      rewrite (conns_bytes_delete (conns w) id conn Hid) in Hacc.
      rewrite <- (wrap_size_add _ _ wrote Hacc).
      rewrite (Z.add_comm (wrap_size _)), Z.add_assoc, Z.add_comm.
      rewrite wrap_size_idemp_l. f_equal. lia.
  - rewrite Hchunk.
    assert (Hw1 : stream_inv
              (set_conns (<[id := Connection offset (data_transmitted conn)
                                     (remote conn) (sockfd conn)]> (conns w)) w)).
    { unfold stream_inv, offsets_in_payload, bytes_accounted in *. cbn.
      split; [exact Hpay|]. split.
      - intros id' conn'. rewrite lookup_insert. case_decide.
        + intros [= <-]. cbn. lia.
        + apply Hoffs.
      - rewrite conns_bytes_insert. cbn.
        rewrite <- (conns_bytes_delete (conns w) id conn Hid). assumption. }
    destruct (errno =? EPIPE); [|exact Hw1].
    cbn [remote]. 
    apply (fold_and_close_stream id
             (Connection offset (data_transmitted conn) (remote conn) (sockfd conn))).
    + cbn. apply lookup_insert_eq.
    + destruct Hw1 as (Hp1 & Ho1 & Ha1).
      unfold stream_inv, offsets_in_payload, bytes_accounted in *. cbn in *.
      rewrite trace_bytes_app. cbn. rewrite Z.add_0_r. auto.
Qed.

Lemma dispatch_stream (ev : event) (w w' : world) :
  dispatch ev w = Running w' -> write_fits ev w ->
  stream_inv w -> stream_inv w'.
Proof.
  destruct ev as [ans env|id revents ans].
  - cbn [dispatch]. intros Hrun _.
    destruct (control_watcher w); [|injection Hrun as <-; auto].
    unfold control_cb in Hrun. destruct ans as [c|errno].
    + destruct (Ascii.eqb c "c"); [exact (start_new_connection_stream env w w' Hrun)|].
      destruct (Ascii.eqb c "b"); injection Hrun as <-; [auto|].
      intros (Hp & Ho & Ha). unfold stream_inv, bytes_accounted in *. cbn.
      rewrite trace_bytes_app. cbn. rewrite Z.add_0_r. auto.
    + injection Hrun as <-. intros (Hp & Ho & Ha).
      unfold stream_inv, bytes_accounted in *. cbn.
      rewrite trace_bytes_app. cbn. rewrite Z.add_0_r. auto.
  - cbn [dispatch]. destruct (conns w !! id) as [conn|] eqn:Hid;
      intros [= <-]; [|auto].
    apply connection_cb_stream. assumption.
Qed.

Lemma run_stream (evs : list event) :
  forall w w' : world,
  run evs w = Running w' -> run_fits evs w -> stream_inv w -> stream_inv w'.
Proof.
  induction evs as [|ev evs IH]; intros w w'; cbn.
  - intros [= <-]. auto.
  - destruct (dispatch ev w) as [w1|] eqn:Hstep; [|discriminate].
    intros Hrun [Hfit Hfits] Hinv. eapply IH; [eassumption|assumption|].
    eapply dispatch_stream; eassumption.
Qed.

Lemma engine_loop_args_stream (addresses rd_pipe ncpus : Z)
    (las : list loop_arguments) (la : loop_arguments) :
  start_engine addresses rd_pipe ncpus = Some las ->
  la ∈ las ->
  stream_inv (single_engine_loop_thread la).
Proof.
  unfold start_engine. destruct (ncpus <? 1); [discriminate|].
  intros [= <-] Hla. apply list_elem_of_fmap in Hla as (n & -> & _).
  split; [|split].
  - unfold payload_wf, SIZE_MOD. cbn. lia.
  - intros id conn Hid. cbn in Hid. rewrite lookup_empty in Hid. discriminate.
  - reflexivity.
Qed.

Lemma reachable_world_one_dead : reachable world_one_dead.
Proof.
  apply (reachable_run events_one_dead
           (single_engine_loop_thread (engine_loop_args 2 0 0))).
  - apply (reachable_start 2 0 1 [engine_loop_args 2 0 0]);
      [lia|reflexivity|apply list_elem_of_here].
  - vm_compute. reflexivity.
Qed.

Lemma run_full_life : run events_full_life world_thread0 = Running world_full_life.
Proof. vm_compute. reflexivity. Qed.

Lemma run_fits_full_life : run_fits events_full_life world_thread0.
Proof. vm_compute. repeat split; discriminate. Qed.

(** X9. Along a run of a worker from the start of the engine in which
    every [write] answers a length between 0 and the length it was
    offered, the write offset of every live connection stays between 0
    and the length of the payload, so no [write] is handed bytes from
    outside the payload. *)
Theorem write_offsets_stay_in_payload (addresses rd_pipe ncpus : Z)
    (las : list loop_arguments) (la : loop_arguments) (evs : list event)
    (w : world) (id : nat) (conn : connection) :
  start_engine addresses rd_pipe ncpus = Some las ->
  la ∈ las ->
  run evs (single_engine_loop_thread la) = Running w ->
  run_fits evs (single_engine_loop_thread la) ->
  conns w !! id = Some conn ->
  0 <= write_offset conn <= sample_data_size (largs w) /\
  exists position available offset,
    largest_contiguous_chunk (largs w) (write_offset conn)
      = (position, available, offset) /\
    0 <= position /\
    position + available = Z.of_nat (length (sample_data (largs w))).
Proof.
  intros Hstart Hla Hrun Hfits Hid.
  destruct (run_stream evs _ _ Hrun Hfits
              (engine_loop_args_stream _ _ _ _ _ Hstart Hla))
    as (Hpay & Hoffs & _).
  pose proof (Hoffs id conn Hid) as Hoff. split; [assumption|].
  destruct (largest_contiguous_chunk_cases (largs w) Hpay (write_offset conn) Hoff)
    as (offset & Hchunk & Hoffset & _).
  exists offset, (sample_data_size (largs w) - offset), offset.
  split; [assumption|]. destruct Hpay as [_ Hlen]. lia.
Qed.

(** X10. Along such a run the counters account for every byte: the
    aggregate of the worker plus the byte counters of its live
    connections is, modulo [2^64], the number of bytes written to the
    sockets; when no connection is left, the aggregate alone is. *)
Theorem bytes_transmitted_accounted (addresses rd_pipe ncpus : Z)
    (las : list loop_arguments) (la : loop_arguments) (evs : list event)
    (w : world) :
  1 <= addresses ->
  start_engine addresses rd_pipe ncpus = Some las ->
  la ∈ las ->
  run evs (single_engine_loop_thread la) = Running w ->
  run_fits evs (single_engine_loop_thread la) ->
  wrap_size (total_data_transmitted (largs w) + conns_bytes (conns w))
    = wrap_size (trace_bytes (trace w)) /\
  (conns w = ∅ ->
   total_data_transmitted (largs w) = wrap_size (trace_bytes (trace w))).
Proof.
  intros Hn Hstart Hla Hrun Hfits.
  destruct (run_stream evs _ _ Hrun Hfits
              (engine_loop_args_stream _ _ _ _ _ Hstart Hla))
    as (_ & _ & Hacc).
  split; [assumption|]. intros Hnone.
  assert (Hw : reachable w).
  { eapply reachable_run; [|eassumption]. eapply reachable_start; eassumption. }
  destruct (reachable_wf w Hw) as (_ & Htot & _).
  unfold bytes_accounted in Hacc. rewrite Hnone in Hacc.
  unfold conns_bytes in Hacc. rewrite map_fold_empty, Z.add_0_r in Hacc.
  rewrite <- Hacc. unfold wrap_size. symmetry. apply Z.mod_small. assumption.
Qed.

Lemma write_offsets_stay_in_payload_witness :
  run events_offset_at_end world_thread0 = Running world_offset_at_end /\
  run_fits events_offset_at_end world_thread0 /\
  0 <= write_offset (Connection 3 3 0 7)
    <= sample_data_size (largs world_offset_at_end).
Proof.
  assert (Hrun : run events_offset_at_end world_thread0
                 = Running world_offset_at_end) by (vm_compute; reflexivity).
  assert (Hfits : run_fits events_offset_at_end world_thread0)
    by (vm_compute; repeat split; discriminate).
  split; [exact Hrun|]. split; [exact Hfits|].
  destruct (write_offsets_stay_in_payload 1 0 1 [largs_thread0] largs_thread0
              events_offset_at_end world_offset_at_end 0 (Connection 3 3 0 7))
    as [Hoff _];
    [reflexivity|apply list_elem_of_here|exact Hrun|exact Hfits|reflexivity|].
  exact Hoff.
Defined.

Lemma bytes_transmitted_accounted_witness :
  run events_full_life world_thread0 = Running world_full_life /\
  run_fits events_full_life world_thread0 /\
  total_data_transmitted (largs world_full_life)
    = wrap_size (trace_bytes (trace world_full_life)).
Proof.
  split; [exact run_full_life|]. split; [exact run_fits_full_life|].
  destruct (bytes_transmitted_accounted 1 0 1 [largs_thread0] largs_thread0
              events_full_life world_full_life) as [_ Hnone];
    [lia|reflexivity|apply list_elem_of_here|exact run_full_life
    |exact run_fits_full_life|].
  exact (Hnone eq_refl).
Defined.

(** ** Shutdown *)

Lemma run_drains (l : list (nat * Z * write_answer)) :
  forall w : world,
  terminating w = true ->
  (forall id : nat, is_Some (conns w !! id) -> id ∈ (fun x => x.1.1) <$> l) ->
  exists w',
    run (ready_events l) w = Running w' /\
    conns w' = ∅ /\
    control_watcher w' = control_watcher w /\
    trace w' = trace w /\
    wrap_size (total_data_transmitted (largs w'))
      = wrap_size (total_data_transmitted (largs w) + conns_bytes (conns w)).
Proof.
  induction l as [|[[id revents] ans] l IH]; intros w Hterm Hcover.
  - exists w. cbn. assert (Hnone : conns w = ∅).
    { apply map_empty. intros id. destruct (conns w !! id) eqn:Hid; [|reflexivity].
      specialize (Hcover id (mk_is_Some _ _ Hid)). inversion Hcover. }
    rewrite Hnone. unfold conns_bytes. rewrite map_fold_empty, Z.add_0_r. auto.
  - cbn [ready_events fmap list_fmap run dispatch fst snd].
    destruct (conns w !! id) as [conn|] eqn:Hid.
    + rewrite connection_cb_terminating by assumption.
      destruct (IH (torn_down id conn w)) as (w' & Hrun & Hnone & Hctl & Htr & Htot).
      { exact Hterm. }
      { intros id' [c Hid']. cbn in Hid'.
        apply lookup_delete_Some in Hid' as [Hne Hid'].
        specialize (Hcover id' (mk_is_Some _ _ Hid')). cbn in Hcover.
        apply elem_of_cons in Hcover as [?|?]; [congruence|assumption]. }
      exists w'. split; [exact Hrun|]. split; [exact Hnone|].
      split; [exact Hctl|]. split; [exact Htr|].
      rewrite Htot. cbn. rewrite wrap_size_idemp_l.
      rewrite (conns_bytes_delete (conns w) id conn Hid). f_equal. lia.
    + apply IH; [assumption|].
      intros id' Hid'. specialize (Hcover id' Hid'). cbn in Hcover.
      apply elem_of_cons in Hcover as [->|?]; [|assumption].
      rewrite Hid in Hid'. destruct Hid' as [? ?]. discriminate.
Qed.

(** X11. Shutdown. Once a worker is terminating, one readiness event on
    each of its live connections, whatever the event masks and whatever
    the writes would answer, leaves the worker with no connection, an
    open-connection count of 0, no watcher started, nothing further
    written or logged, and an aggregate byte counter that has taken in
    the counters of all the connections it had. *)
Theorem terminated_worker_drains (w : world)
    (l : list (nat * Z * write_answer)) :
  reachable w ->
  terminating w = true ->
  (forall id : nat, is_Some (conns w !! id) -> id ∈ (fun x => x.1.1) <$> l) ->
  exists w',
    run (ready_events l) w = Running w' /\
    conns w' = ∅ /\
    open_connections (largs w') = 0 /\
    control_watcher w' = false /\
    trace w' = trace w /\
    total_data_transmitted (largs w')
      = wrap_size (total_data_transmitted (largs w) + conns_bytes (conns w)).
Proof.
  intros Hw Hterm Hcover.
  destruct (run_drains l w Hterm Hcover) as (w' & Hrun & Hnone & Hctl & Htr & Htot).
  exists w'. split; [exact Hrun|]. split; [exact Hnone|].
  pose proof (reachable_run _ _ _ Hw Hrun) as Hw'.
  destruct (reachable_invs w' Hw') as [Hcount _].
  destruct (reachable_wf w' Hw') as (_ & Hrange & _).
  pose proof (reachable_terminating w Hw) as Hinv. rewrite Hterm in Hinv.
  split; [|split; [|split]].
  - unfold count_inv in Hcount. rewrite Hcount, Hnone, map_size_empty. reflexivity.
  - rewrite Hctl. destruct (control_watcher w); [discriminate|reflexivity].
  - exact Htr.
  - rewrite <- Htot. unfold wrap_size. symmetry. apply Z.mod_small. assumption.
Qed.

Lemma reachable_world_terminating : reachable world_terminating.
Proof.
  apply (reachable_step world_offset_at_end
           (ControlReadable (ReadByte "b") env_in_progress)).
  - exact reachable_world_offset_at_end.
  - reflexivity.
Qed.

Lemma terminated_worker_drains_witness :
  reachable world_terminating /\
  terminating world_terminating = true /\
  exists w',
    run (ready_events [(0%nat, EV_WRITE, Wrote 3)]) world_terminating
      = Running w' /\
    conns w' = ∅ /\
    open_connections (largs w') = 0 /\
    control_watcher w' = false /\
    trace w' = trace world_terminating /\
    total_data_transmitted (largs w')
      = wrap_size (total_data_transmitted (largs world_terminating)
                   + conns_bytes (conns world_terminating)).
Proof.
  split; [exact reachable_world_terminating|]. split; [reflexivity|].
  apply (terminated_worker_drains world_terminating [(0%nat, EV_WRITE, Wrote 3)]).
  - exact reachable_world_terminating.
  - reflexivity.
  - intros id [c Hid]. cbn in Hid.
    apply lookup_singleton_Some in Hid as [<- _]. apply list_elem_of_here.
Defined.

Lemma terminating_iff_control_stopped_witness :
  reachable world_terminating /\
  terminating world_terminating = negb (control_watcher world_terminating) /\
  (terminating world_terminating = true ->
   forall (ans : read_answer) (env : syscalls),
     dispatch (ControlReadable ans env) world_terminating
       = Running world_terminating) /\
  (control_watcher world_terminating = false ->
   conns world_terminating = ∅ ->
   terminating world_terminating = true /\
   open_connections (largs world_terminating) = 0).
Proof.
  split; [exact reachable_world_terminating|].
  exact (terminating_iff_control_stopped world_terminating
           reachable_world_terminating).
Defined.

Lemma dead_address_has_no_connection_witness :
  reachable world_one_dead /\
  stats (largs world_one_dead) !! 0%nat = Some (RemoteStats 11 11) /\
  skip_eligible (RemoteStats 11 11) = true /\
  conns world_one_dead !! 0%nat = Some (Connection 0 0 1 7) /\
  remote (Connection 0 0 1 7) <> 0%nat.
Proof.
  split; [exact reachable_world_one_dead|]. do 3 (split; [reflexivity|]).
  exact (dead_address_has_no_connection world_one_dead 0 (RemoteStats 11 11)
           0 (Connection 0 0 1 7) reachable_world_one_dead
           eq_refl eq_refl eq_refl).
Defined.

Lemma no_attempt_on_dead_address_witness :
  largs_wf (largs world_one_dead) /\
  entry_skip_eligible (largs world_one_dead) 1 = false /\
  skip_eligible (RemoteStats 11 11) = true /\
  stats (largs (result_world (start_new_connection env_refused world_one_dead)))
    !! 0%nat = Some (RemoteStats 11 11).
Proof.
  assert (Hwf : largs_wf (largs world_one_dead)).
  { unfold largs_wf, UINT_MOD. cbn. lia. }
  split; [exact Hwf|]. do 2 (split; [reflexivity|]).
  apply (no_attempt_on_dead_address world_one_dead env_refused 1 0
           (RemoteStats 11 11) Hwf).
  - unfold UINT_MOD. cbn. lia.
  - cbn. lia.
  - reflexivity.
  - reflexivity.
  - reflexivity.
Defined.

Lemma pick_many_round_robin_witness :
  largs_wf (engine_loop_args 3 0 1) /\
  Forall (fun rs => skip_eligible rs = false) (stats (engine_loop_args 3 0 1)) /\
  pick_many 4 (engine_loop_args 3 0 1)
  = Some ([1%nat; 2%nat; 0%nat; 1%nat],
          set_address_offset (engine_loop_args 3 0 1) 5).
Proof.
  assert (Hwf : largs_wf (engine_loop_args 3 0 1)).
  { repeat split; vm_compute; first [reflexivity|discriminate]. }
  assert (Hall : Forall (fun rs => skip_eligible rs = false)
                   (stats (engine_loop_args 3 0 1))).
  { cbn. repeat constructor. }
  split; [exact Hwf|]. split; [exact Hall|].
  destruct (pick_many_round_robin (engine_loop_args 3 0 1) 4 Hwf Hall) as [Heq _].
  rewrite Heq. vm_compute. reflexivity.
Defined.

Lemma start_engine_first_pick_witness :
  start_engine 3 0 2 = Some [engine_loop_args 3 0 0; engine_loop_args 3 0 1] /\
  pick_remote_address (engine_loop_args 3 0 1)
  = Some (1%nat, set_address_offset (engine_loop_args 3 0 1) 2).
Proof.
  split; [reflexivity|].
  rewrite (start_engine_first_pick 3 0 2
             [engine_loop_args 3 0 0; engine_loop_args 3 0 1] 1
             (engine_loop_args 3 0 1));
    [vm_compute; reflexivity|lia|reflexivity|reflexivity].
Defined.

(** ** The paths of the callbacks that end a connection or begin one *)

(** X12. When the socket is there, [fcntl] succeeds and [connect] answers
    0 or [EINPROGRESS], the worker goes on with one more connection:
    it has a key no live connection has, so that every connection there
    was is kept as it is; it starts at write offset 0 with no byte sent
    and is bound to the chosen address and to the socket. The attempts
    of the address and the open-connection count are incremented, the
    failures are not, and nothing is logged or closed. *)
Theorem start_new_connection_established (w : world) (env : syscalls)
    (i : nat) (la : loop_arguments) (rs : remote_stats) (fd : Z) :
  pick_remote_address (largs w) = Some (i, la) ->
  stats (largs w) !! i = Some rs ->
  socket_ans env = SocketFd fd ->
  fcntl_ans env <> -1 ->
  connect_ans env = ConnectDone \/ connect_ans env = ConnectError EINPROGRESS ->
  exists id : nat,
    conns w !! id = None /\
    start_new_connection env w
    = Running
        (World
           (LoopArguments (n_addrs (largs w)) (sample_data (largs w))
              (sample_data_size (largs w))
              (<[i := RemoteStats (connection_attempts rs + 1)
                        (connection_failures rs)]> (stats (largs w)))
              (address_offset la) (control_pipe (largs w))
              (thread_no (largs w)) (total_data_transmitted (largs w))
              (thread_flags (largs w)) (open_connections (largs w) + 1))
           (<[id := Connection 0 0 i fd]> (conns w))
           (control_watcher w) (trace w)) /\
    forall id' : nat, id' <> id ->
      <[id := Connection 0 0 i fd]> (conns w) !! id' = conns w !! id'.
Proof.
  intros Hpick Hrs Hsock Hfcntl Hconn.
  pose proof (pick_remote_address_frame _ _ _ Hpick) as Hla.
  exists (fresh (dom (conns w))).
  split; [apply not_elem_of_dom, is_fresh|]. split.
  - unfold start_new_connection. rewrite Hpick.
    destruct la as [n d s t c p th tot fl op].
    unfold set_address_offset in Hla. cbn in Hla.
    injection Hla as -> -> -> -> -> -> -> -> ->.
    cbn [stats]. rewrite Hrs, Hsock.
    destruct (Z.eqb_spec (fcntl_ans env) (-1)) as [|_]; [contradiction|].
    destruct Hconn as [-> | ->]; reflexivity.
  - intros id' Hne. apply lookup_insert_ne. congruence.
Qed.

Lemma start_new_connection_established_witness :
  exists id : nat,
    conns world_offset_at_end !! id = None /\
    exists w',
      start_new_connection env_in_progress world_offset_at_end = Running w' /\
      conns w' !! id = Some (Connection 0 0 0 7) /\
      conns w' !! 0%nat = Some (Connection 3 3 0 7).
Proof.
  destruct (start_new_connection_established world_offset_at_end env_in_progress
              0 (set_address_offset (largs world_offset_at_end) 2)
              (RemoteStats 1 0) 7)
    as (id & Hfree & Hrun & Hkeep);
    [reflexivity|reflexivity|reflexivity|discriminate|right; reflexivity|].
  exists id. split; [exact Hfree|]. eexists. split; [exact Hrun|].
  cbn [conns]. split; [apply lookup_insert_eq|].
  rewrite Hkeep; [reflexivity|]. intros <-. discriminate Hfree.
Defined.

(** X13. A write that fails with [EPIPE] on a worker that is not
    terminating ends the connection: the peer is logged, the failures
    of the connection's address are incremented and no other entry is
    touched, the bytes the connection has sent are added to the
    aggregate, the open-connection count goes down by one and the
    connection is no longer live, so that a later readiness event
    for it changes nothing. *)
Theorem connection_cb_broken_pipe (w : world) (id : nat) (conn : connection)
    (revents : Z) (rs : remote_stats) :
  conns w !! id = Some conn ->
  terminating w = false ->
  Z.land revents EV_WRITE <> 0 ->
  stats (largs w) !! remote conn = Some rs ->
  exists w',
    dispatch (SocketReady id revents (WriteError EPIPE)) w = Running w' /\
    stats (largs w') !! remote conn
      = Some (RemoteStats (connection_attempts rs) (connection_failures rs + 1)) /\
    (forall j : nat, j <> remote conn ->
       stats (largs w') !! j = stats (largs w) !! j) /\
    total_data_transmitted (largs w')
      = wrap_size (total_data_transmitted (largs w) + data_transmitted conn) /\
    open_connections (largs w') = open_connections (largs w) - 1 /\
    conns w' = delete id (conns w) /\
    trace w' = trace w ++ [ELog (LogClosedBy (remote conn))] /\
    forall (revents' : Z) (ans : write_answer),
      dispatch (SocketReady id revents' ans) w' = Running w'.
Proof.
  intros Hid Hterm Hev Hrs.
  exists (World
            (LoopArguments (n_addrs (largs w)) (sample_data (largs w))
               (sample_data_size (largs w))
               (alter incr_failures (remote conn) (stats (largs w)))
               (address_offset (largs w)) (control_pipe (largs w))
               (thread_no (largs w))
               (wrap_size (total_data_transmitted (largs w) + data_transmitted conn))
               (thread_flags (largs w)) (open_connections (largs w) - 1))
            (delete id (conns w)) (control_watcher w)
            (trace w ++ [ELog (LogClosedBy (remote conn))])).
  split.
  - cbn [dispatch]. rewrite Hid. unfold connection_cb.
    unfold terminating in Hterm. rewrite Hterm.
    destruct (Z.eqb_spec (Z.land revents EV_WRITE) 0) as [|_]; [contradiction|].
    cbn [negb]. destruct (largest_contiguous_chunk _ _) as [[position available] offset].
    change (EPIPE =? EPIPE) with true. cbv iota.
    unfold fold_and_close, close_connection, set_conns, set_largs, log. cbn.
    rewrite delete_insert_eq. reflexivity.
  - cbn. repeat split.
    + rewrite list_lookup_alter_eq, Hrs. reflexivity.
    + intros j Hne. apply list_lookup_alter_ne. congruence.
    + intros revents' ans. rewrite lookup_delete_eq. reflexivity.
Qed.

Lemma connection_cb_broken_pipe_witness :
  exists w',
    dispatch (SocketReady 0 EV_WRITE (WriteError EPIPE)) world_offset_at_end
      = Running w' /\
    stats (largs w') !! 0%nat = Some (RemoteStats 1 1) /\
    total_data_transmitted (largs w') = 3 /\
    conns w' = ∅.
Proof.
  destruct (connection_cb_broken_pipe world_offset_at_end 0 (Connection 3 3 0 7)
              EV_WRITE (RemoteStats 1 0))
    as (w' & Hrun & Hstats & _ & Htot & _ & Hconns & _);
    [reflexivity|reflexivity|discriminate|reflexivity|].
  exists w'. split; [exact Hrun|]. split; [exact Hstats|].
  split; [exact Htot|]. rewrite Hconns. reflexivity.
Defined.

(** X14. A readiness event of a connection touches that connection and
    its address only: whatever the event and the answer of [write],
    every other connection is as it was, the cursor and the attempts of
    every address are unchanged, the entries of the other addresses are
    unchanged, and the failures of its own address grow by one at
    most. *)
Theorem connection_cb_touches_own_only (w : world) (id : nat)
    (conn : connection) (revents : Z) (ans : write_answer) :
  let w' := connection_cb id conn revents ans w in
  (forall id' : nat, id' <> id -> conns w' !! id' = conns w !! id') /\
  address_offset (largs w') = address_offset (largs w) /\
  length (stats (largs w')) = length (stats (largs w)) /\
  (forall j : nat, j <> remote conn ->
     stats (largs w') !! j = stats (largs w) !! j) /\
  (forall rs : remote_stats, stats (largs w) !! remote conn = Some rs ->
     exists rs', stats (largs w') !! remote conn = Some rs' /\
       connection_attempts rs' = connection_attempts rs /\
       connection_failures rs <= connection_failures rs'
         <= connection_failures rs + 1).
Proof.
  unfold connection_cb, fold_and_close.
  repeat case_match; cbn; rewrite ?length_alter; repeat split;
    try (intros id' Hne;
         rewrite ?lookup_delete_ne, ?lookup_insert_ne by congruence; reflexivity);
    try (intros j Hne; rewrite ?list_lookup_alter_ne by congruence; reflexivity);
    intros rs Hrs; rewrite ?list_lookup_alter_eq, Hrs; cbn;
    eexists; (split; [reflexivity|]); cbn; lia.
Qed.

(** ** Input that is no command *)

(** X15. Failed reads of the control channel and bytes other than 'c' and
    'b' are harmless: a run of such input leaves the worker, its
    connections and its control watcher as they are and logs one line
    for each of them. *)
Theorem control_cb_ignores_other_input (evs : list event) (w : world) :
  Forall ignored_input evs ->
  control_watcher w = true ->
  exists logs : list log_msg,
    length logs = length evs /\
    run evs w
    = Running (World (largs w) (conns w) true (trace w ++ (ELog <$> logs))).
Proof.
  revert w. induction evs as [|ev evs IH]; intros w Hall Hctl.
  - exists []. cbn. rewrite app_nil_r, <- Hctl. destruct w. auto.
  - apply Forall_cons in Hall as [Hev Hall].
    assert (Hstep : exists m, dispatch ev w = Running (log m w)).
    { destruct ev as [[c|errno] env|]; cbn in Hev |- *; [| |contradiction].
      - rewrite Hctl. unfold control_cb. destruct Hev as [Hc Hb].
        apply Ascii.eqb_neq in Hc, Hb. rewrite Hc, Hb. eauto.
      - rewrite Hctl. unfold control_cb. eauto. }
    destruct Hstep as [m Hstep].
    destruct (IH (log m w) Hall Hctl) as (logs & Hlen & Hrun).
    exists (m :: logs). cbn [run length]. rewrite Hstep, Hrun. cbn.
    rewrite <- app_assoc. split; [lia|reflexivity].
Qed.

Lemma control_cb_ignores_other_input_witness :
  exists logs : list log_msg,
    length logs = 2%nat /\
    run [ControlReadable (ReadFailed 4) env_in_progress;
         ControlReadable (ReadByte "x") env_in_progress] world_offset_at_end
    = Running (World (largs world_offset_at_end) (conns world_offset_at_end) true
                 (trace world_offset_at_end ++ (ELog <$> logs))).
Proof.
  apply (control_cb_ignores_other_input
           [ControlReadable (ReadFailed 4) env_in_progress;
            ControlReadable (ReadByte "x") env_in_progress] world_offset_at_end).
  - repeat constructor; discriminate.
  - reflexivity.
Defined.

(** ** The cursor after a selection *)

(** X16. When the cursor does not reach the end of its range, a
    selection leaves it just past the chosen address: the cursor has
    moved forward by at least one and at most the pool size, and the
    next scan starts at the address after the chosen one. *)
Theorem pick_remote_address_cursor_past_chosen (la la' : loop_arguments)
    (i : nat) :
  largs_wf la ->
  address_offset la + n_addrs la < UINT_MOD ->
  pick_remote_address la = Some (i, la') ->
  address_offset la < address_offset la' <= address_offset la + n_addrs la /\
  Z.of_nat i = (address_offset la' - 1) mod n_addrs la /\
  candidate la' 0 = Z.to_nat ((Z.of_nat i + 1) mod n_addrs la).
Proof.
  intros (Hn & Hlen & Hc) Hnowrap.
  destruct (pick_scan_spec (n_addrs la) (stats la) Hn Hlen
              (Z.to_nat (n_addrs la)) (address_offset la) 0)
    as (k & Hk & Heq & _); [lia|assumption|].
  unfold pick_remote_address. rewrite Heq. intros [= <- <-].
  unfold candidate. cbn [address_offset n_addrs set_address_offset].
  rewrite !wrap_uint_small by (unfold UINT_MOD in *; lia).
  pose proof (Z.mod_pos_bound (address_offset la + Z.of_nat k) (n_addrs la)).
  split; [lia|]. split.
  - rewrite Z2Nat.id by lia. f_equal. lia.
  - rewrite Z2Nat.id by lia. f_equal. rewrite Z.add_0_r.
    rewrite Zplus_mod_idemp_l. reflexivity.
Qed.

Lemma pick_remote_address_cursor_past_chosen_witness :
  largs_wf (largs world_one_dead) /\
  pick_remote_address (largs world_one_dead)
    = Some (1%nat, set_address_offset (largs world_one_dead) 24) /\
  22 < 24 <= 22 + 2 /\
  Z.of_nat 1 = (24 - 1) mod 2.
Proof.
  assert (Hwf : largs_wf (largs world_one_dead)).
  { repeat split; vm_compute; first [reflexivity|discriminate]. }
  assert (Hpick : pick_remote_address (largs world_one_dead)
                  = Some (1%nat, set_address_offset (largs world_one_dead) 24))
    by reflexivity.
  split; [exact Hwf|]. split; [exact Hpick|].
  destruct (pick_remote_address_cursor_past_chosen (largs world_one_dead) _ 1
              Hwf ltac:(vm_compute; reflexivity) Hpick) as (Hmove & Hidx & _).
  split; [exact Hmove|exact Hidx].
Defined.
